(** * Clamped simulated annealing over an Ising model

    Shallow embedding of the hand-written annealing loop of the notebook
    [12_Training Probabilistic Graphical Models.ipynb]: cell 5, the code cell
    with execution count 3, which imports [greedy_coloring], builds [adj],
    initialises [spins] and runs the [for β in βs] loop.

    Conventions of the embedding.
    - Nodes are Python integers: [Z].
    - [h] and [J] are Python dicts that the cell iterates over, so they are
      association lists in insertion order (keys of a dict are distinct).
    - [clamped_spins], [spins], [adj], [energy_diff_h], [energy_diff_J] are
      dicts that are only looked up and updated by key: [gmap].
    - Spins are integers. The numbers held by [h], [J], [βs] and the energy
      differences are Python floats; the cell is written once over an
      interface [Num] of the operations it applies to them, with two
      instances: binary64 ([float]), the arithmetic of the notebook, and the
      rationals ([Q]), the exact arithmetic in which the energy formulas are
      stated.
    - A failing dict lookup raises [KeyError]: type [result].
    - A mixed operation converts its integer operand to a float. The
      embedding covers spins below [2^63] in magnitude, for which the
      conversion is exact or correctly rounded and cannot fail (a larger
      Python int can make it raise [OverflowError], which [result] does not
      have).
    - The cell iterates over the set [adj[v0]] in an order that Python does
      not fix: [elements] stands for it. In exact arithmetic the sum does not
      depend on that order; a statement on the value of the sum in any other
      arithmetic ranges over every order of the set.
    - [np.random] is a global generator: its state is threaded explicitly.
      A draw [np.log(np.random.uniform(0, 1))] is represented by its value
      (the draw [U = 0], whose logarithm is [-inf], has no value in [Q]).
    - [greedy_coloring] is imported from dimod: it is a parameter. *)

From Stdlib Require Import ZArith QArith Lia Lqa Floats.
From stdpp Require Import base option list gmap fin_maps fin_sets.

Open Scope Z_scope.
Set Warnings "-clear-no-such-hyp".

(** ** Values *)

Definition node := Z.

(** The operations of the cell on floats. [of_int] is the conversion that a
    mixed operation applies to its integer operand, and the reading of the
    literals [1.0], [-1.] and [-2.]. *)
Class Num (num : Type) := {
  of_int : Z → num;
  nadd : num → num → num;
  nsub : num → num → num;
  nmul : num → num → num;
  ndiv : num → num → num;
  nltb : num → num → bool;
}.

Declare Scope num_scope.
Delimit Scope num_scope with num.
Infix "+" := nadd : num_scope.
Infix "-" := nsub : num_scope.
Infix "*" := nmul : num_scope.
Infix "/" := ndiv : num_scope.
Infix "<?" := nltb : num_scope.

(** Exact arithmetic. *)
Definition Qltb (x y : Q) : bool :=
  (Qnum x * Zpos (Qden y) <? Qnum y * Zpos (Qden x))%Z.

#[export] Instance Q_num : Num Q := {|
  of_int := inject_Z;
  nadd := Qplus;
  nsub := Qminus;
  nmul := Qmult;
  ndiv := Qdiv;
  nltb := Qltb
|}.

(** Binary64. The conversion is that of an [int64]: exact up to [2^53],
    rounded to nearest even above, for integers below [2^63] in magnitude
    (the range of the embedding). *)
Definition float_of_Z (z : Z) : float :=
  match z with
  | Z0 => 0%float
  | Zpos _ => PrimFloat.of_uint63 (Uint63.of_Z z)
  | Zneg p => PrimFloat.opp (PrimFloat.of_uint63 (Uint63.of_Z (Zpos p)))
  end.

#[export] Instance float_num : Num float := {|
  of_int := float_of_Z;
  nadd := PrimFloat.add;
  nsub := PrimFloat.sub;
  nmul := PrimFloat.mul;
  ndiv := PrimFloat.div;
  nltb := PrimFloat.ltb
|}.

(** ** Exceptions *)

Inductive result (A : Type) : Type :=
| Ok (a : A)
| KeyError.
Arguments Ok {A} a.
Arguments KeyError {A}.

Definition rbind {A B} (m : result A) (k : A → result B) : result B :=
  match m with
  | Ok a => k a
  | KeyError => KeyError
  end.

(** [d[k]] on a [gmap]-modelled dict. *)
Definition get {V} (d : gmap node V) (k : node) : result V :=
  match d !! k with
  | Some v => Ok v
  | None => KeyError
  end.

Notation "'let!' x ':=' m 'in' k" := (rbind m (fun x => k))
  (at level 10, x pattern, m at level 100, k at level 200, only parsing).

(** ** Dicts that are iterated: association lists *)

Definition biases (num : Type) := list (node * num).
Definition couplings (num : Type) := list ((node * node) * num).

Definition keys {V} (d : list (node * V)) : list node := d.*1.

(** [d.get(k)] on an insertion-ordered dict. *)
Fixpoint h_lookup {num} (h : biases num) (v : node) : option num :=
  match h with
  | [] => None
  | (k, x) :: h' => if decide (k = v) then Some x else h_lookup h' v
  end.

Fixpoint J_lookup {num} (J : couplings num) (e : node * node) : option num :=
  match J with
  | [] => None
  | (k, x) :: J' => if decide (k = e) then Some x else J_lookup J' e
  end.

(** ** The random source *)

Class RandomSource (num rng : Type) := {
  (** [np.random.choice] between two options: [false] picks the first. *)
  rand_pick : rng → bool * rng;
  (** [np.log(np.random.uniform(0, 1))]. *)
  rand_log_uniform : rng → num * rng;
}.

(** [np.random.choice((a, b))] *)
Definition choice {num rng} `{RandomSource num rng} {A}
    (options : A * A) (g : rng) : A * rng :=
  let '(b, g') := rand_pick g in
  ((if b then snd options else fst options), g').

(** ** Adjacency

    [adj = {n: set() for n in h}]
    [for n0, n1 in J: adj[n0].add(n1); adj[n1].add(n0)] *)

Definition adj_init {num} (h : biases num) : gmap node (gset node) :=
  foldl (fun a v => <[v := ∅]> a) ∅ (keys h).

Definition adj_add (adj : gmap node (gset node)) (n0 n1 : node)
  : result (gmap node (gset node)) :=
  let! s := get adj n0 in
  Ok (<[n0 := {[n1]} ∪ s]> adj).

Fixpoint adj_edges {num} (J : couplings num) (adj : gmap node (gset node))
  : result (gmap node (gset node)) :=
  match J with
  | [] => Ok adj
  | ((n0, n1), _) :: J' =>
      let! adj1 := adj_add adj n0 n1 in
      let! adj2 := adj_add adj1 n1 n0 in
      adj_edges J' adj2
  end.

Definition build_adj {num} (h : biases num) (J : couplings num)
  : result (gmap node (gset node)) :=
  adj_edges J (adj_init h).

(** ** The sampler *)

Section Sampler.
Context {num : Type} `{NA : Num num} {rng : Type} `{RS : RandomSource num rng}.

(** [greedy_coloring(adj)[1]]: the colour classes in the order in which
    [for color in colors] visits them, each class in the order in which
    its set is iterated. *)
Variable greedy_coloring : gmap node (gset node) → list (list node).

Variable h : biases num.
Variable J : couplings num.
Variable clamped_spins : gmap node Z.

(** [spins = {v: np.random.choice((-1, 1)) if v not in clamped_spins
             else clamped_spins[v] for v in h}] *)
Fixpoint init_spins (vs : list node) (spins : gmap node Z) (g : rng)
  : gmap node Z * rng :=
  match vs with
  | [] => (spins, g)
  | v :: vs' =>
      match clamped_spins !! v with
      | None =>
          let '(s, g') := choice (-1, 1) g in
          init_spins vs' (<[v := s]> spins) g'
      | Some c => init_spins vs' (<[v := c]> spins) g
      end
  end.

(** [energy_diff_h = {v: -2 * spins[v] * h[v] for v in h}] *)
Fixpoint energy_diff_h (vs : list node) (spins : gmap node Z)
    (acc : gmap node num) : result (gmap node num) :=
  match vs with
  | [] => Ok acc
  | v :: vs' =>
      let! s := get spins v in
      match h_lookup h v with
      | None => KeyError
      | Some hv =>
          energy_diff_h vs' spins (<[v := (of_int (-2 * s) * hv)%num]> acc)
      end
  end.

(** [if (a, b) in J: ediff += spins[v0] * spins[v1] * J[(a, b)]] *)
Definition add_coupling (spins : gmap node Z) (v0 v1 : node)
    (e : node * node) (ediff : num) : result num :=
  match J_lookup J e with
  | None => Ok ediff
  | Some w =>
      let! s0 := get spins v0 in
      let! s1 := get spins v1 in
      Ok (ediff + of_int (s0 * s1) * w)%num
  end.

(** [for v1 in adj[v0]: ...] *)
Fixpoint ediff_loop (spins : gmap node Z) (v0 : node) (nbrs : list node)
    (ediff : num) : result num :=
  match nbrs with
  | [] => Ok ediff
  | v1 :: rest =>
      let! e1 := add_coupling spins v0 v1 (v0, v1) ediff in
      let! e2 := add_coupling spins v0 v1 (v1, v0) e1 in
      ediff_loop spins v0 rest e2
  end.

(** [for v0 in nodes: ediff = 0; ...; energy_diff_J[v0] = -2. * ediff] *)
Fixpoint energy_diff_J (adj : gmap node (gset node)) (spins : gmap node Z)
    (nodes : list node) (acc : gmap node num) : result (gmap node num) :=
  match nodes with
  | [] => Ok acc
  | v0 :: rest =>
      let! nb := get adj v0 in
      let! ediff := ediff_loop spins v0 (elements nb) (of_int 0) in
      energy_diff_J adj spins rest (<[v0 := (of_int (-2) * ediff)%num]> acc)
  end.

(** [logp < -1. * β * (energy_diff_h[v] + energy_diff_J[v])] *)
Definition accept (β : num) (dh dJ : num) (logp : num) : bool :=
  (logp <? of_int (-1) * β * (dh + dJ))%num.

(** [for v in filter(lambda x: x not in clamped_spins, nodes): ...] *)
Fixpoint flip_loop (β : num) (edh edJ : gmap node num) (nodes : list node)
    (spins : gmap node Z) (g : rng) : result (gmap node Z * rng) :=
  match nodes with
  | [] => Ok (spins, g)
  | v :: rest =>
      match clamped_spins !! v with
      | Some _ => flip_loop β edh edJ rest spins g
      | None =>
          let '(logp, g') := rand_log_uniform g in
          let! dh := get edh v in
          let! dJ := get edJ v in
          if accept β dh dJ logp then
            let! s := get spins v in
            flip_loop β edh edJ rest (<[v := s * -1]> spins) g'
          else flip_loop β edh edJ rest spins g'
      end
  end.

(** Body of [for color in colors]. *)
Definition update_class (adj : gmap node (gset node)) (β : num)
    (edh : gmap node num) (nodes : list node) (spins : gmap node Z) (g : rng)
  : result (gmap node Z * rng) :=
  let! edJ := energy_diff_J adj spins nodes ∅ in
  flip_loop β edh edJ nodes spins g.

Fixpoint color_loop (adj : gmap node (gset node)) (β : num)
    (edh : gmap node num) (colors : list (list node))
    (spins : gmap node Z) (g : rng) : result (gmap node Z * rng) :=
  match colors with
  | [] => Ok (spins, g)
  | nodes :: rest =>
      let! (spins', g') := update_class adj β edh nodes spins g in
      color_loop adj β edh rest spins' g'
  end.

(** Body of [for β in βs]. *)
Definition sweep (adj : gmap node (gset node)) (colors : list (list node))
    (β : num) (spins : gmap node Z) (g : rng) : result (gmap node Z * rng) :=
  let! edh := energy_diff_h (keys h) spins ∅ in
  color_loop adj β edh colors spins g.

Fixpoint sweeps (adj : gmap node (gset node)) (colors : list (list node))
    (βs : list num) (spins : gmap node Z) (g : rng)
  : result (gmap node Z * rng) :=
  match βs with
  | [] => Ok (spins, g)
  | β :: rest =>
      let! (spins', g') := sweep adj colors β spins g in
      sweeps adj colors rest spins' g'
  end.

(** The whole cell, from [adj = ...] to the end of the loop; the result is
    the final [spins] (and the generator state). *)
Definition Sample (βs : list num) (g : rng) : result (gmap node Z * rng) :=
  let! adj := build_adj h J in
  let colors := greedy_coloring adj in
  let '(spins, g1) := init_spins (keys h) ∅ g in
  sweeps adj colors βs spins g1.

End Sampler.

(** ** The schedule of the notebook

    [num_sweeps = 1000]
    [βs = [1.0 - 1.0*i / (num_sweeps - 1.) for i in range(num_sweeps)]] *)

Definition num_sweeps : Z := 1000.

Definition β_entry {num} `{Num num} (i : Z) : num :=
  (of_int 1 - of_int 1 * of_int i / (of_int num_sweeps - of_int 1))%num.

Definition βs {num} `{Num num} : list num :=
  map (fun i : nat => β_entry (Z.of_nat i)) (seq 0 (Z.to_nat num_sweeps)).

(** Each entry of a list of floats is greater than the next one. *)
Fixpoint decreasing_float (l : list float) : bool :=
  match l with
  | x :: ((y :: _) as rest) => PrimFloat.ltb y x && decreasing_float rest
  | _ => true
  end.

(** * Vocabulary of the statements *)

(** Every neighbour recorded in [adj] is itself a key of [adj]. *)
Definition adj_closed (adj : gmap node (gset node)) : Prop :=
  ∀ v nb, adj !! v = Some nb → nb ⊆ dom adj.

(** Both end points of every key of [J] belong to [D]. *)
Definition couplings_within {num} (D : gset node) (J : couplings num) : Prop :=
  Forall (fun e => e.1.1 ∈ D ∧ e.1.2 ∈ D) J.

(** Every stored spin is [-1] or [+1]. *)
Definition spins_pm1 (spins : gmap node Z) : Prop :=
  ∀ v s, spins !! v = Some s → s = 1 ∨ s = -1.

(** [spins'] has the keys of [spins]; each value is kept or, for a node
    that is not clamped, multiplied by [-1]. *)
Definition evolves (clamped : gmap node Z) (spins spins' : gmap node Z) : Prop :=
  dom spins' = dom spins ∧
  ∀ u, spins' !! u = spins !! u ∨
       (clamped !! u = None ∧
        ∃ s, spins !! u = Some s ∧ spins' !! u = Some (s * -1)).

(** The nodes of every colour class are keys of [adj]. *)
Definition classes_within (adj : gmap node (gset node))
    (colors : list (list node)) : Prop :=
  ∀ nodes v, nodes ∈ colors → v ∈ nodes → v ∈ dom adj.

(** [edh] holds, for the nodes of the class, the bias term of the current
    spins. *)
Definition bias_term_current {num} `{Num num} (h : biases num)
    (edh : gmap node num) (nodes : list node) (spins : gmap node Z) : Prop :=
  ∀ v s hv, v ∈ nodes → spins !! v = Some s → h_lookup h v = Some hv →
            edh !! v = Some (of_int (-2 * s) * hv)%num.

(** The colouring invariant: two distinct nodes of one class are not
    adjacent. *)
Definition independent (adj : gmap node (gset node)) (nodes : list node) : Prop :=
  ∀ u v nb, u ∈ nodes → v ∈ nodes → u ≠ v → adj !! v = Some nb → u ∉ nb.

(** ** The energy delta in exact arithmetic *)

(** Readings of the dicts with the value [0] for an absent key. *)
Definition spin_of (spins : gmap node Z) (v : node) : Z :=
  default 0 (spins !! v).

Definition bias (h : biases Q) (v : node) : Q :=
  default 0%Q (h_lookup h v).

Definition weight (J : couplings Q) (e : node * node) : Q :=
  default 0%Q (J_lookup J e).

Definition neighbors (adj : gmap node (gset node)) (v : node) : list node :=
  elements (default ∅ (adj !! v)).

(** [coupling(v,u)]: what [J] holds for the pair, in both directions. *)
Definition coupling (J : couplings Q) (v u : node) : Q :=
  (weight J (v, u) + weight J (u, v))%Q.

(** [Σ_{u∈nbrs} coupling(v,u)·spin[u]] *)
Fixpoint local_field (J : couplings Q) (spins : gmap node Z) (v : node)
    (nbrs : list node) : Q :=
  match nbrs with
  | [] => 0%Q
  | u :: rest =>
      (coupling J v u * inject_Z (spin_of spins u)
       + local_field J spins v rest)%Q
  end.


(** The energy delta that the loop tests:
    [ΔE = -2·spin[v]·bias[v] - 2·spin[v]·Σ_{u∈neighbors(v)} coupling(v,u)·spin[u]]. *)
Definition delta_E (h : biases Q) (J : couplings Q)
    (adj : gmap node (gset node)) (spins : gmap node Z) (v : node) : Q :=
  (-2 * inject_Z (spin_of spins v) * bias h v
   - 2 * inject_Z (spin_of spins v) * local_field J spins v (neighbors adj v))%Q.

(** ** The draws of a class *)

Section Draws.
Context {num : Type} `{NA : Num num} {rng : Type} `{RS : RandomSource num rng}.
Variable clamped_spins : gmap node Z.

(** The draw that [flip_loop] hands to node [v] when it runs over [nodes]
    from the generator state [g]. *)
Fixpoint draw_of (nodes : list node) (g : rng) (v : node) : num :=
  match nodes with
  | [] => of_int 0
  | u :: rest =>
      match clamped_spins !! u with
      | Some _ => draw_of rest g v
      | None =>
          let '(logp, g') := rand_log_uniform g in
          if decide (u = v) then logp else draw_of rest g' v
      end
  end.

(** The generator state that [flip_loop] leaves behind. *)
Fixpoint rng_after (nodes : list node) (g : rng) : rng :=
  match nodes with
  | [] => g
  | u :: rest =>
      match clamped_spins !! u with
      | Some _ => rng_after rest g
      | None => rng_after rest (rand_log_uniform g).2
      end
  end.

End Draws.

(** ** Random sources with identical draws *)

(** Two random sources, in states related by [R], return the same outcome
    at every call and stay related: they produce identical sequences of
    draws. *)
Definition same_draws {num rng1 rng2 : Type}
    `{RS1 : RandomSource num rng1} `{RS2 : RandomSource num rng2}
    (R : rng1 → rng2 → Prop) : Prop :=
  ∀ g1 g2, R g1 g2 →
    ((rand_pick g1).1 = (rand_pick g2).1 ∧
     R (rand_pick g1).2 (rand_pick g2).2) ∧
    ((rand_log_uniform g1).1 = (rand_log_uniform g2).1 ∧
     R (rand_log_uniform g1).2 (rand_log_uniform g2).2).

(** Two runs end alike: both raise, or both return the same spins and leave
    related generators. *)
Definition same_outcome {rng1 rng2 : Type} (R : rng1 → rng2 → Prop)
    (r1 : result (gmap node Z * rng1)) (r2 : result (gmap node Z * rng2))
  : Prop :=
  match r1, r2 with
  | Ok (s1, g1), Ok (s2, g2) => s1 = s2 ∧ R g1 g2
  | KeyError, KeyError => True
  | _, _ => False
  end.

(** ** Strictly sequential single-node updates

    The reference behaviour of the specification: one node at a time, each
    energy delta evaluated on the spins as they stand when the node is
    reached. *)

Section Reference.
Context {num : Type} `{NA : Num num}.
Variable h : biases num.
Variable J : couplings num.
Variable clamped_spins : gmap node Z.

(** One Metropolis update of [v] with the draw [logp]. *)
Definition node_update (adj : gmap node (gset node)) (β : num) (logp : num)
    (v : node) (spins : gmap node Z) : result (gmap node Z) :=
  let! s := get spins v in
  match h_lookup h v with
  | None => KeyError
  | Some hv =>
      let! nb := get adj v in
      let! ediff := ediff_loop J spins v (elements nb) (of_int 0) in
      if accept β (of_int (-2 * s) * hv)%num (of_int (-2) * ediff)%num logp
      then Ok (<[v := s * -1]> spins)
      else Ok spins
  end.

Fixpoint sequential_updates (adj : gmap node (gset node)) (β : num)
    (draw : node → num) (order : list node) (spins : gmap node Z)
  : result (gmap node Z) :=
  match order with
  | [] => Ok spins
  | v :: rest =>
      match clamped_spins !! v with
      | Some _ => sequential_updates adj β draw rest spins
      | None =>
          let! spins' := node_update adj β (draw v) v spins in
          sequential_updates adj β draw rest spins'
      end
  end.

End Reference.

(** ** Concrete collaborators used in examples *)

(** A scripted random source: the outcomes of its successive calls (once
    the script is exhausted it answers [false] and [-1]). *)
Record tape (num : Type) := Tape { picks : list bool; logs : list num }.
Arguments Tape {num} picks logs.
Arguments picks {num} t.
Arguments logs {num} t.

#[export] Instance tape_source {num} `{Num num} : RandomSource num (tape num) := {|
  rand_pick t :=
    match picks t with
    | [] => (false, t)
    | b :: r => (b, Tape r (logs t))
    end;
  rand_log_uniform t :=
    match logs t with
    | [] => (of_int (-1), t)
    | q :: r => (q, Tape (picks t) r)
    end
|}.

(** The same source with a counter of the calls made so far. *)
Record counted (num : Type) := Counted { calls : nat; script : tape num }.
Arguments Counted {num} calls script.
Arguments calls {num} c.
Arguments script {num} c.

#[export] Instance counted_source {num} `{Num num}
  : RandomSource num (counted num) := {|
  rand_pick c :=
    let '(b, t) := rand_pick (script c) in (b, Counted (S (calls c)) t);
  rand_log_uniform c :=
    let '(q, t) := rand_log_uniform (script c) in (q, Counted (S (calls c)) t)
|}.

(** The colouring that gives every node a colour of its own. *)
Definition singleton_coloring (adj : gmap node (gset node)) : list (list node) :=
  (fun v => [v]) <$> elements (dom adj).

(** The model of the notebook's scenario: three nodes in a chain, the first
    one clamped to [-1]. *)
Definition example_h : biases Q := [(0, 0%Q); (1, 0%Q); (2, 0%Q)].
Definition example_J : couplings Q := [((0, 1), (-5)%Q); ((1, 2), (-5)%Q)].
Definition example_clamped : gmap node Z := {[0 := -1]}.
Definition example_adj : gmap node (gset node) :=
  {[0 := {[1]}; 1 := {[0; 2]}; 2 := {[1]}]}.
Definition example_tape : tape Q :=
  Tape [true; true] [(-1)%Q; (-1 # 64)%Q; (-3)%Q; (-30)%Q].

(** The colour classes of that model: nodes 0 and 2, then node 1. *)
Definition example_coloring (adj : gmap node (gset node)) : list (list node) :=
  [[0; 2]; [1]].

(** The same scenario in binary64. *)
Definition example_h_float : biases float :=
  [(0, 0%float); (1, 0%float); (2, 0%float)].
Definition example_J_float : couplings float :=
  [((0, 1), (-5)%float); ((1, 2), (-5)%float)].
Definition example_tape_float : tape float :=
  Tape [true; true] [(-1)%float; (-0.015625)%float; (-3)%float; (-30)%float].

(** * Further vocabulary *)

(** The nodes of a list that are not clamped: the ones for which the cell
    draws. *)
Definition free_nodes (clamped : gmap node Z) (l : list node) : list node :=
  filter (fun v => clamped !! v = None) l.

(** A random source that counts the calls made to the source it wraps. *)
Record metered (rng : Type) := Metered { draws : nat; inner : rng }.
Arguments Metered {rng} draws inner.
Arguments draws {rng} m.
Arguments inner {rng} m.

#[export] Instance metered_source {num rng} `{RandomSource num rng}
  : RandomSource num (metered rng) := {|
  rand_pick m :=
    let '(b, g) := rand_pick (inner m) in (b, Metered (S (draws m)) g);
  rand_log_uniform m :=
    let '(q, g) := rand_log_uniform (inner m) in (q, Metered (S (draws m)) g)
|}.

(** A random source whose logarithms are all below zero, as the logarithm
    of a number drawn from (0,1) is: the script gives the numerators of the
    successive draws [-p/1] (and [-1] once it is exhausted). *)
Record neg_tape := NegTape { neg_picks : list bool; neg_logs : list positive }.

#[export] Instance neg_tape_source : RandomSource Q neg_tape := {|
  rand_pick t :=
    match neg_picks t with
    | [] => (false, t)
    | b :: r => (b, NegTape r (neg_logs t))
    end;
  rand_log_uniform t :=
    match neg_logs t with
    | [] => ((-1)%Q, t)
    | p :: r => ((Z.neg p # 1)%Q, NegTape (neg_picks t) r)
    end
|}.

(** ** The energy of the model

    Cell 1 builds [dimod.BinaryQuadraticModel(h, J, 0.0, dimod.SPIN)]: the
    energy of an assignment is the sum of [h[v]·spin[v]] over the entries of
    [h], plus the sum of [J[(a,b)]·spin[a]·spin[b]] over the entries of [J],
    plus the offset [0.0]. *)

(** Sums over a list of nodes and over the entries of [J]. *)
Definition lsum (f : node → Q) (l : list node) : Q :=
  fold_right (fun u acc => (f u + acc)%Q) 0%Q l.

Definition Jsum (f : node → node → Q → Q) (J : couplings Q) : Q :=
  fold_right (fun e acc => (f e.1.1 e.1.2 e.2 + acc)%Q) 0%Q J.

Definition field_energy (h : biases Q) (spins : gmap node Z) : Q :=
  fold_right (fun e acc => (e.2 * inject_Z (spin_of spins e.1) + acc)%Q) 0%Q h.

Definition pair_energy (J : couplings Q) (spins : gmap node Z) : Q :=
  Jsum (fun a b w =>
          (w * inject_Z (spin_of spins a) * inject_Z (spin_of spins b))%Q) J.

Definition ising_energy (h : biases Q) (J : couplings Q)
    (spins : gmap node Z) : Q :=
  (field_energy h spins + pair_energy J spins + 0)%Q.

(** [spins[v] *= -1] *)
Definition flip_spin (v : node) (spins : gmap node Z) : gmap node Z :=
  <[v := spin_of spins v * -1]> spins.

(** ** The model of cell 1 *)

(** [np.random.uniform(low, high)] *)
Class UniformSource (num rng : Type) := {
  rand_uniform : num → num → rng → num * rng
}.

(** [{v: np.random.uniform(-2, 2) for v in range(n_spins)}], over the values
    of the range. *)
Fixpoint draw_biases {num rng} `{Num num} `{UniformSource num rng}
    (vs : list node) (g : rng) : biases num * rng :=
  match vs with
  | [] => ([], g)
  | v :: rest =>
      let '(x, g1) := rand_uniform (of_int (-2)) (of_int 2) g in
      let '(h, g2) := draw_biases rest g1 in
      ((v, x) :: h, g2)
  end.

(** [h] and [J] of cell 1, for any [n_spins]. *)
Definition make_model {num rng} `{Num num} `{UniformSource num rng}
    (n_spins : Z) (g : rng) : biases num * couplings num * rng :=
  let '(h, g1) := draw_biases (seqZ 0 n_spins) g in
  let '(j01, g2) := rand_uniform (of_int (-1)) (of_int 1) g1 in
  let '(j12, g3) := rand_uniform (of_int (-1)) (of_int 1) g2 in
  (h, [((0, 1), j01); ((1, 2), j12)], g3).

(** A scripted source of uniform draws (the lower bound once the script is
    exhausted). *)
#[export] Instance script_uniform {num} : UniformSource num (list num) := {|
  rand_uniform low high t :=
    match t with
    | [] => (low, [])
    | x :: r => (x, r)
    end
|}.

(** ** Rescaled models *)

(** The model with every bias and every coupling multiplied by [c]. *)
Definition scale_biases (c : Q) (h : biases Q) : biases Q :=
  (fun e => (e.1, (c * e.2)%Q)) <$> h.

Definition scale_couplings (c : Q) (J : couplings Q) : couplings Q :=
  (fun e => (e.1, (c * e.2)%Q)) <$> J.

(** Two results fail together, or return related values. *)
Definition result_rel {A} (R : A → A → Prop) (r r' : result A) : Prop :=
  match r, r' with
  | Ok a, Ok a' => R a a'
  | KeyError, KeyError => True
  | _, _ => False
  end.

(** [m'] has the keys of [m], with the values multiplied by [c]. *)
Definition scaled (c : Q) (m m' : gmap node Q) : Prop :=
  ∀ v, match m !! v, m' !! v with
       | Some x, Some x' => (x' == c * x)%Q
       | None, None => True
       | _, _ => False
       end.

(** ** Signs of binary64 values *)

(** A value that is [+0], [-0], positive or [+inf]; and the same on the
    negative side. [NaN] is neither. *)
Definition nonneg_sf (x : spec_float) : Prop :=
  match x with
  | S754_zero _ | S754_infinity false | S754_finite false _ _ => True
  | _ => False
  end.

Definition nonpos_sf (x : spec_float) : Prop :=
  match x with
  | S754_zero _ | S754_infinity true | S754_finite true _ _ => True
  | _ => False
  end.

(** * Properties *)

(** ** Comparison of rationals *)

Lemma Qltb_lt (x y : Q) : Qltb x y = true ↔ (x < y)%Q.
Proof. unfold Qltb, Qlt. apply Z.ltb_lt. Qed.

Lemma Qltb_ge (x y : Q) : Qltb x y = false ↔ (y <= x)%Q.
Proof. unfold Qltb, Qle. apply Z.ltb_ge. Qed.

Lemma Qltb_compat (x x' y y' : Q) :
  (x == x')%Q → (y == y')%Q → Qltb x y = Qltb x' y'.
Proof.
  intros Hx Hy.
  destruct (Qltb x y) eqn:E, (Qltb x' y') eqn:E'; try reflexivity.
  - apply Qltb_lt in E. apply Qltb_ge in E'. rewrite Hx, Hy in E. lra.
  - apply Qltb_ge in E. apply Qltb_lt in E'. rewrite Hx, Hy in E. lra.
Qed.

(** ** The error monad *)

Lemma rbind_Ok {A B} (m : result A) (k : A → result B) (b : B) :
  rbind m k = Ok b ↔ ∃ a, m = Ok a ∧ k a = Ok b.
Proof.
  destruct m as [a|]; simpl; split.
  - intros Hk. by exists a.
  - by intros (a' & [= ->] & Hk).
  - discriminate.
  - by intros (a' & [=] & _).
Qed.

Lemma get_Ok {V} (d : gmap node V) (k : node) (v : V) :
  get d k = Ok v ↔ d !! k = Some v.
Proof. unfold get. destruct (d !! k); split; congruence. Qed.

Lemma get_KeyError {V} (d : gmap node V) (k : node) :
  get d k = KeyError ↔ k ∉ dom d.
Proof.
  unfold get. rewrite not_elem_of_dom.
  destruct (d !! k); split; congruence.
Qed.

Lemma get_in_dom {V} (d : gmap node V) (k : node) :
  k ∈ dom d → ∃ v, get d k = Ok v ∧ d !! k = Some v.
Proof.
  intros [v Hv]%elem_of_dom. exists v. by rewrite get_Ok.
Qed.

(** ** Adjacency construction *)

Lemma adj_init_dom_acc (vs : list node) (a : gmap node (gset node)) :
  dom (foldl (fun a v => <[v := ∅]> a) a vs) = dom a ∪ list_to_set vs.
Proof.
  revert a. induction vs as [|v vs IH]; intros a; simpl.
  - set_solver.
  - rewrite IH, dom_insert_L. set_solver.
Qed.

Lemma adj_init_dom {num} (h : biases num) : dom (adj_init h) = list_to_set (keys h).
Proof. unfold adj_init. rewrite adj_init_dom_acc. set_solver. Qed.

Lemma adj_init_lookup_acc (vs : list node) (a : gmap node (gset node)) v nb :
  foldl (fun a v => <[v := ∅]> a) a vs !! v = Some nb →
  nb = ∅ ∨ a !! v = Some nb.
Proof.
  revert a. induction vs as [|u vs IH]; intros a; simpl; [by right|].
  intros [->|H]%IH; [by left|].
  destruct (decide (u = v)) as [->|Hne].
  - rewrite lookup_insert_eq in H. left. congruence.
  - rewrite lookup_insert_ne in H by done. by right.
Qed.

Lemma adj_init_closed {num} (h : biases num) : adj_closed (adj_init h).
Proof.
  intros v nb [->|H]%adj_init_lookup_acc; [set_solver|].
  by rewrite lookup_empty in H.
Qed.

Lemma adj_add_Ok adj n0 n1 :
  n0 ∈ dom adj →
  ∃ adj', adj_add adj n0 n1 = Ok adj' ∧ dom adj' = dom adj ∧
          (n1 ∈ dom adj → adj_closed adj → adj_closed adj').
Proof.
  intros Hin. destruct (get_in_dom adj n0 Hin) as (s & Hg & Hs).
  unfold adj_add. rewrite Hg. simpl. eexists. split; [done|].
  assert (Hd : dom (<[n0:={[n1]} ∪ s]> adj) = dom adj).
  { rewrite dom_insert_L. set_solver. }
  split; [done|]. intros Hn1 Hc v nb. rewrite Hd.
  destruct (decide (n0 = v)) as [->|Hne].
  - rewrite lookup_insert_eq. intros [= <-]. specialize (Hc _ _ Hs). set_solver.
  - rewrite lookup_insert_ne by done. apply Hc.
Qed.

Lemma adj_add_KeyError adj n0 n1 :
  n0 ∉ dom adj → adj_add adj n0 n1 = KeyError.
Proof.
  intros Hin%get_KeyError. unfold adj_add. by rewrite Hin.
Qed.

Lemma adj_edges_Ok {num} (J : couplings num) adj :
  couplings_within (dom adj) J → adj_closed adj →
  ∃ adj', adj_edges J adj = Ok adj' ∧ dom adj' = dom adj ∧ adj_closed adj'.
Proof.
  revert adj. induction J as [|[[n0 n1] w] J IH]; intros adj HJ Hc; simpl.
  - by exists adj.
  - apply Forall_cons in HJ as [[H0 H1] HJ]. simpl in H0, H1.
    destruct (adj_add_Ok adj n0 n1 H0) as (adj1 & -> & Hd1 & Hc1). simpl.
    destruct (adj_add_Ok adj1 n1 n0) as (adj2 & -> & Hd2 & Hc2);
      [by rewrite Hd1|]. simpl.
    destruct (IH adj2) as (adj' & -> & Hd' & Hc').
    + by rewrite Hd2, Hd1.
    + apply Hc2; [by rewrite Hd1|by apply Hc1].
    + exists adj'. split; [done|]. split; [congruence|done].
Qed.

Lemma adj_edges_KeyError {num} (J : couplings num) adj :
  ¬ couplings_within (dom adj) J → adj_edges J adj = KeyError.
Proof.
  revert adj. induction J as [|[[n0 n1] w] J IH]; intros adj HJ; simpl.
  - destruct HJ. constructor.
  - destruct (decide (n0 ∈ dom adj)) as [H0|H0];
      [|by rewrite adj_add_KeyError].
    destruct (adj_add_Ok adj n0 n1 H0) as (adj1 & -> & Hd1 & _). simpl.
    destruct (decide (n1 ∈ dom adj)) as [H1|H1];
      [|by rewrite adj_add_KeyError by (by rewrite Hd1)].
    destruct (adj_add_Ok adj1 n1 n0) as (adj2 & -> & Hd2 & _);
      [by rewrite Hd1|]. simpl.
    apply IH. rewrite Hd2, Hd1. intros HJ'. apply HJ.
    by apply Forall_cons.
Qed.

Lemma build_adj_Ok {num} (h : biases num) (J : couplings num) :
  couplings_within (list_to_set (keys h)) J →
  ∃ adj, build_adj h J = Ok adj ∧ dom adj = list_to_set (keys h) ∧
         adj_closed adj.
Proof.
  intros HJ. unfold build_adj.
  destruct (adj_edges_Ok J (adj_init h)) as (adj & -> & Hd & Hc).
  - by rewrite adj_init_dom.
  - apply adj_init_closed.
  - exists adj. by rewrite Hd, adj_init_dom.
Qed.

Lemma build_adj_KeyError {num} (h : biases num) (J : couplings num) :
  ¬ couplings_within (list_to_set (keys h)) J → build_adj h J = KeyError.
Proof.
  intros HJ. apply adj_edges_KeyError. by rewrite adj_init_dom.
Qed.

(** ** Invariants of the spin assignment *)

Lemma evolves_refl clamped spins : evolves clamped spins spins.
Proof. split; [done|]. intros u. by left. Qed.

Lemma evolves_trans clamped s1 s2 s3 :
  evolves clamped s1 s2 → evolves clamped s2 s3 → evolves clamped s1 s3.
Proof.
  intros [Hd12 H12] [Hd23 H23]. split; [congruence|]. intros u.
  destruct (H23 u) as [E23|(Hc & s & Hs2 & Hs3)].
  - rewrite E23. apply H12.
  - destruct (H12 u) as [E12|(_ & s0 & Hs1 & Hs2')].
    + right. split; [done|]. exists s. by rewrite <- E12.
    + left. rewrite Hs3, Hs1. f_equal.
      assert (s = s0 * -1) by congruence. lia.
Qed.

Lemma evolves_flip clamped spins v s :
  clamped !! v = None → spins !! v = Some s →
  evolves clamped spins (<[v := s * -1]> spins).
Proof.
  intros Hc Hs. split.
  - rewrite dom_insert_L. apply elem_of_dom_2 in Hs. set_solver.
  - intros u. destruct (decide (v = u)) as [<-|Hne].
    + right. split; [done|]. exists s. by rewrite lookup_insert_eq.
    + left. by rewrite lookup_insert_ne.
Qed.

Lemma evolves_clamped clamped spins spins' v :
  evolves clamped spins spins' → is_Some (clamped !! v) →
  spins' !! v = spins !! v.
Proof.
  intros [_ H] [c Hc]. destruct (H v) as [E|(Hn & _)]; [done|congruence].
Qed.

Lemma evolves_pm1 clamped spins spins' :
  evolves clamped spins spins' → spins_pm1 spins → spins_pm1 spins'.
Proof.
  intros [_ H] Hpm v s' Hs'. destruct (H v) as [E|(_ & s & Hs & Hs'')].
  - apply (Hpm v). congruence.
  - assert (s' = s * -1) by congruence. destruct (Hpm v s Hs); lia.
Qed.

Lemma h_lookup_keys {num} (h : biases num) (v : node) :
  v ∈ keys h ↔ is_Some (h_lookup h v).
Proof.
  unfold keys. induction h as [|[k x] h IH]; simpl.
  - split; [by intros ?%elem_of_nil|by intros [? ?]].
  - rewrite elem_of_cons. destruct (decide (k = v)) as [->|Hne].
    + split; [by eexists|by left].
    + rewrite <- IH. split; [intros [?|?]; [congruence|done]|by right].
Qed.

Section SamplerFacts.
Context {num : Type} `{NA : Num num} {rng : Type} `{RS : RandomSource num rng}.
Variable h : biases num.
Variable J : couplings num.
Variable clamped : gmap node Z.

(** *** Initialisation *)

Lemma init_spins_dom vs spins g :
  dom (init_spins clamped vs spins g).1 = dom spins ∪ list_to_set vs.
Proof.
  revert spins g. induction vs as [|v vs IH]; intros spins g; simpl.
  - set_solver.
  - destruct (clamped !! v) as [c|].
    + rewrite IH, dom_insert_L. set_solver.
    + destruct (choice (-1, 1) g) as [s g'].
      rewrite IH, dom_insert_L. set_solver.
Qed.

Lemma init_spins_clamped vs spins g v c :
  clamped !! v = Some c → v ∈ vs ∨ spins !! v = Some c →
  (init_spins clamped vs spins g).1 !! v = Some c.
Proof.
  intros Hc. revert spins g.
  induction vs as [|u vs IH]; intros spins g Hv; simpl.
  - destruct Hv as [Hv|Hv]; [by apply elem_of_nil in Hv|done].
  - assert (Hcase : u = v ∨ (u ≠ v ∧ (v ∈ vs ∨ spins !! v = Some c))).
    { destruct (decide (u = v)); [by left|right; split; [done|]].
      destruct Hv as [Hv|Hv]; [|by right].
      apply elem_of_cons in Hv as [?|?]; [congruence|by left]. }
    destruct Hcase as [->|[Hne Hv']].
    + rewrite Hc. apply IH. right. apply lookup_insert_eq.
    + destruct (clamped !! u) as [cu|].
      * apply IH. destruct Hv'; [by left|right].
        by rewrite lookup_insert_ne.
      * destruct (choice (-1, 1) g) as [s g']. apply IH.
        destruct Hv'; [by left|right]. by rewrite lookup_insert_ne.
Qed.

Lemma choice_pm1 (g : rng) : (choice (-1, 1) g).1 = 1 ∨ (choice (-1, 1) g).1 = -1.
Proof.
  unfold choice. destruct (rand_pick g) as [[] g']; simpl; auto.
Qed.

Lemma init_spins_pm1 vs spins g :
  (∀ v c, clamped !! v = Some c → c = 1 ∨ c = -1) →
  spins_pm1 spins → spins_pm1 (init_spins clamped vs spins g).1.
Proof.
  intros Hcl. revert spins g.
  induction vs as [|u vs IH]; intros spins g Hpm; simpl; [done|].
  destruct (clamped !! u) as [cu|] eqn:Hcu.
  - apply IH. intros v s. destruct (decide (u = v)) as [->|Hne].
    + rewrite lookup_insert_eq. intros [= <-]. by apply (Hcl v).
    + rewrite lookup_insert_ne by done. apply Hpm.
  - pose proof (choice_pm1 g) as Hch.
    destruct (choice (-1, 1) g) as [s g']. simpl in Hch. apply IH.
    intros v s'. destruct (decide (u = v)) as [->|Hne].
    + rewrite lookup_insert_eq. by intros [= <-].
    + rewrite lookup_insert_ne by done. apply Hpm.
Qed.

(** *** The bias term *)

Lemma energy_diff_h_Ok vs spins acc :
  (∀ v, v ∈ vs → v ∈ keys h ∧ v ∈ dom spins) →
  ∃ edh, energy_diff_h h vs spins acc = Ok edh ∧
    dom edh = dom acc ∪ list_to_set vs ∧
    ∀ v, (v ∉ vs → edh !! v = acc !! v) ∧
         (v ∈ vs → ∀ s hv, spins !! v = Some s → h_lookup h v = Some hv →
            edh !! v = Some (of_int (-2 * s) * hv)%num).
Proof.
  revert acc. induction vs as [|u vs IH]; intros acc Hvs; simpl.
  - exists acc. split; [done|]. split; [set_solver|]. intros v.
    split; [done|by intros ?%elem_of_nil].
  - destruct (Hvs u) as [Hk Hd]; [by left|].
    destruct (get_in_dom _ _ Hd) as (s & -> & Hs). simpl.
    apply h_lookup_keys in Hk as [hv Hhv]. rewrite Hhv.
    destruct (IH (<[u:=(of_int (-2 * s) * hv)%num]> acc))
      as (edh & -> & Hdom & Hedh).
    { intros v Hv. apply Hvs. by right. }
    exists edh. split; [done|]. split.
    { rewrite Hdom, dom_insert_L. set_solver. }
    intros v. destruct (Hedh v) as [Hout Hin]. split.
    + intros [Hne Hnin]%not_elem_of_cons.
      rewrite Hout by done. by rewrite lookup_insert_ne.
    + intros Hv s' hv' Hs' Hhv'.
      destruct (decide (v ∈ vs)) as [Hvin|Hvnin]; [by apply Hin|].
      apply elem_of_cons in Hv as [->|?]; [|done].
      rewrite Hout by done. rewrite lookup_insert_eq. congruence.
Qed.

(** *** The coupling term *)

Lemma add_coupling_ext spins spins' v0 v1 e ediff :
  spins !! v0 = spins' !! v0 → spins !! v1 = spins' !! v1 →
  add_coupling J spins v0 v1 e ediff = add_coupling J spins' v0 v1 e ediff.
Proof.
  intros H0 H1. unfold add_coupling, get. by rewrite H0, H1.
Qed.

Lemma ediff_loop_ext spins spins' v0 nbrs ediff :
  spins !! v0 = spins' !! v0 →
  (∀ u, u ∈ nbrs → spins !! u = spins' !! u) →
  ediff_loop J spins v0 nbrs ediff = ediff_loop J spins' v0 nbrs ediff.
Proof.
  intros H0. revert ediff.
  induction nbrs as [|v1 nbrs IH]; intros ediff Hn; simpl; [done|].
  assert (H1 : spins !! v1 = spins' !! v1) by (apply Hn; by left).
  rewrite (add_coupling_ext spins spins' v0 v1 (v0, v1)) by done.
  destruct (add_coupling J spins' v0 v1 (v0, v1) ediff) as [e1|];
    simpl; [|done].
  rewrite (add_coupling_ext spins spins' v0 v1 (v1, v0)) by done.
  destruct (add_coupling J spins' v0 v1 (v1, v0) e1) as [e2|];
    simpl; [|done].
  apply IH. intros u Hu. apply Hn. by right.
Qed.

Lemma add_coupling_Ok spins v0 v1 e ediff :
  v0 ∈ dom spins → v1 ∈ dom spins →
  ∃ e', add_coupling J spins v0 v1 e ediff = Ok e'.
Proof.
  intros (s0 & E0 & _)%get_in_dom (s1 & E1 & _)%get_in_dom.
  unfold add_coupling. rewrite E0, E1.
  destruct (J_lookup J e); simpl; by eexists.
Qed.

Lemma ediff_loop_Ok spins v0 nbrs ediff :
  v0 ∈ dom spins → (∀ u, u ∈ nbrs → u ∈ dom spins) →
  ∃ e, ediff_loop J spins v0 nbrs ediff = Ok e.
Proof.
  intros H0. revert ediff.
  induction nbrs as [|v1 nbrs IH]; intros ediff Hn; simpl; [by eexists|].
  assert (H1 : v1 ∈ dom spins) by (apply Hn; by left).
  destruct (add_coupling_Ok spins v0 v1 (v0, v1) ediff H0 H1) as [e1 ->].
  simpl.
  destruct (add_coupling_Ok spins v0 v1 (v1, v0) e1 H0 H1) as [e2 ->].
  simpl. apply IH. intros u Hu. apply Hn. by right.
Qed.

Lemma energy_diff_J_Ok adj spins nodes acc :
  adj_closed adj → dom spins = dom adj →
  (∀ v, v ∈ nodes → v ∈ dom adj) →
  ∃ edJ, energy_diff_J J adj spins nodes acc = Ok edJ ∧
    dom edJ = dom acc ∪ list_to_set nodes ∧
    ∀ v, (v ∉ nodes → edJ !! v = acc !! v) ∧
         (v ∈ nodes → ∃ nb e, adj !! v = Some nb ∧
            ediff_loop J spins v (elements nb) (of_int 0) = Ok e ∧
            edJ !! v = Some (of_int (-2) * e)%num).
Proof.
  intros Hc Hd. revert acc.
  induction nodes as [|u nodes IH]; intros acc Hn; simpl.
  - exists acc. split; [done|]. split; [set_solver|]. intros v.
    split; [done|by intros ?%elem_of_nil].
  - assert (Hu : u ∈ dom adj) by (apply Hn; by left).
    destruct (get_in_dom _ _ Hu) as (nb & -> & Hnb). simpl.
    destruct (ediff_loop_Ok spins u (elements nb) (of_int 0)) as [e He].
    { by rewrite Hd. }
    { intros w Hw%elem_of_elements. rewrite Hd. by apply (Hc u nb). }
    rewrite He. simpl.
    destruct (IH (<[u:=(of_int (-2) * e)%num]> acc)) as (edJ & -> & Hdom & HedJ).
    { intros v Hv. apply Hn. by right. }
    exists edJ. split; [done|]. split.
    { rewrite Hdom, dom_insert_L. set_solver. }
    intros v. destruct (HedJ v) as [Hout Hin]. split.
    + intros [Hne Hnin]%not_elem_of_cons.
      rewrite Hout by done. by rewrite lookup_insert_ne.
    + intros Hv.
      destruct (decide (v ∈ nodes)) as [Hvin|Hvnin]; [by apply Hin|].
      apply elem_of_cons in Hv as [->|?]; [|done].
      exists nb, e. split; [done|]. split; [done|].
      rewrite Hout by done. by rewrite lookup_insert_eq.
Qed.

(** *** The loops return, and only flip spins that are not clamped *)

Lemma flip_loop_Ok β edh edJ nodes spins g :
  (∀ v, v ∈ nodes → clamped !! v = None →
        v ∈ dom edh ∧ v ∈ dom edJ ∧ v ∈ dom spins) →
  ∃ spins' g', flip_loop clamped β edh edJ nodes spins g = Ok (spins', g') ∧
               evolves clamped spins spins'.
Proof.
  revert spins g. induction nodes as [|v nodes IH]; intros spins g Hn; simpl.
  - exists spins, g. split; [done|apply evolves_refl].
  - destruct (clamped !! v) as [c|] eqn:Hc.
    + apply IH. intros u Hu. apply Hn. by right.
    + destruct (rand_log_uniform g) as [logp g'].
      destruct (Hn v) as (Hh & HJ & Hs); [by left|done|].
      destruct (get_in_dom _ _ Hh) as (dh & -> & _).
      destruct (get_in_dom _ _ HJ) as (dJ & -> & _).
      destruct (get_in_dom _ _ Hs) as (s & Hgs & Hsv). simpl.
      destruct (accept β dh dJ logp).
      * rewrite Hgs. simpl.
        pose proof (evolves_flip clamped spins v s Hc Hsv) as Hev.
        destruct (IH (<[v:=s * -1]> spins) g') as (spins' & g'' & -> & Hev').
        { intros u Hu Hcu. destruct Hev as [-> _]. apply Hn; [by right|done]. }
        exists spins', g''. split; [done|]. by eapply evolves_trans.
      * apply IH. intros u Hu. apply Hn. by right.
Qed.

Lemma update_class_Ok adj β edh nodes spins g :
  adj_closed adj → dom spins = dom adj →
  (∀ v, v ∈ nodes → v ∈ dom adj ∧ v ∈ dom edh) →
  ∃ spins' g',
    update_class J clamped adj β edh nodes spins g = Ok (spins', g') ∧
    evolves clamped spins spins'.
Proof.
  intros Hc Hd Hn. unfold update_class.
  destruct (energy_diff_J_Ok adj spins nodes ∅ Hc Hd)
    as (edJ & -> & Hdom & _); [intros v Hv; by apply Hn|]. simpl.
  apply flip_loop_Ok. intros v Hv _. destruct (Hn v Hv) as [Ha He].
  split; [done|]. split; [|by rewrite Hd].
  rewrite Hdom. set_solver.
Qed.

Lemma color_loop_Ok adj β edh colors spins g :
  adj_closed adj → dom spins = dom adj → dom adj ⊆ dom edh →
  classes_within adj colors →
  ∃ spins' g',
    color_loop J clamped adj β edh colors spins g = Ok (spins', g') ∧
    evolves clamped spins spins'.
Proof.
  intros Hc Hd He. revert spins g Hd.
  induction colors as [|nodes colors IH]; intros spins g Hd Hcol; simpl.
  - exists spins, g. split; [done|apply evolves_refl].
  - destruct (update_class_Ok adj β edh nodes spins g Hc Hd)
      as (s1 & g1 & -> & Hev1).
    { intros v Hv. assert (v ∈ dom adj) by (apply (Hcol nodes); [by left|done]).
      set_solver. }
    simpl. destruct (IH s1 g1) as (s2 & g2 & -> & Hev2).
    { destruct Hev1 as [-> _]. done. }
    { intros ns v Hns. apply Hcol. by right. }
    exists s2, g2. split; [done|]. by eapply evolves_trans.
Qed.

Lemma sweep_Ok adj colors β spins g :
  adj_closed adj → dom adj = list_to_set (keys h) → dom spins = dom adj →
  classes_within adj colors →
  ∃ spins' g', sweep h J clamped adj colors β spins g = Ok (spins', g') ∧
               evolves clamped spins spins'.
Proof.
  intros Hc Hk Hd Hcol. unfold sweep.
  destruct (energy_diff_h_Ok (keys h) spins ∅) as (edh & -> & Hdom & _).
  { intros v Hv. split; [done|]. rewrite Hd, Hk. set_solver. }
  simpl. apply color_loop_Ok; try done. rewrite Hdom, Hk. set_solver.
Qed.

Lemma sweeps_Ok adj colors βs spins g :
  adj_closed adj → dom adj = list_to_set (keys h) → dom spins = dom adj →
  classes_within adj colors →
  ∃ spins' g', sweeps h J clamped adj colors βs spins g = Ok (spins', g') ∧
               evolves clamped spins spins'.
Proof.
  intros Hc Hk. revert spins g.
  induction βs as [|β βs IH]; intros spins g Hd Hcol; simpl.
  - exists spins, g. split; [done|apply evolves_refl].
  - destruct (sweep_Ok adj colors β spins g) as (s1 & g1 & -> & Hev1);
      try done.
    simpl. destruct (IH s1 g1) as (s2 & g2 & -> & Hev2); try done.
    { destruct Hev1 as [-> _]. done. }
    exists s2, g2. split; [done|]. by eapply evolves_trans.
Qed.

Lemma Sample_Ok greedy_coloring βs g :
  couplings_within (list_to_set (keys h)) J →
  (∀ adj, build_adj h J = Ok adj → classes_within adj (greedy_coloring adj)) →
  ∃ adj spins g',
    build_adj h J = Ok adj ∧
    Sample greedy_coloring h J clamped βs g = Ok (spins, g') ∧
    evolves clamped (init_spins clamped (keys h) ∅ g).1 spins.
Proof.
  intros HJ Hcol. unfold Sample.
  destruct (build_adj_Ok h J HJ) as (adj & Hadj & Hk & Hc).
  rewrite Hadj. simpl. specialize (Hcol adj Hadj).
  pose proof (init_spins_dom (keys h) ∅ g) as Hd0.
  destruct (init_spins clamped (keys h) ∅ g) as [spins0 g0]. simpl in *.
  destruct (sweeps_Ok adj (greedy_coloring adj) βs spins0 g0)
    as (spins & g' & Hs & Hev); try done.
  { rewrite Hd0, Hk. set_solver. }
  by exists adj, spins, g'.
Qed.

End SamplerFacts.

(** ** One colour class *)

Section ClassUpdate.
Context {num : Type} `{NA : Num num} {rng : Type} `{RS : RandomSource num rng}.
Variable h : biases num.
Variable J : couplings num.
Variable clamped : gmap node Z.

Lemma flip_loop_frame β edh edJ nodes spins g spins' g' u :
  u ∉ nodes →
  flip_loop clamped β edh edJ nodes spins g = Ok (spins', g') →
  spins' !! u = spins !! u.
Proof.
  revert spins g. induction nodes as [|v nodes IH]; intros spins g Hu; simpl.
  - by intros [= <- _].
  - apply not_elem_of_cons in Hu as [Hne Hu].
    destruct (clamped !! v); [by apply IH|].
    destruct (rand_log_uniform g) as [logp g1].
    destruct (get edh v) as [dh|]; simpl; [|done].
    destruct (get edJ v) as [dJ|]; simpl; [|done].
    destruct (accept β dh dJ logp).
    + destruct (get spins v) as [s|]; simpl; [|done].
      intros H%IH; [|done]. rewrite H. by rewrite lookup_insert_ne.
    + by apply IH.
Qed.

Lemma flip_loop_spec β edh edJ nodes spins g :
  NoDup nodes →
  (∀ v, v ∈ nodes → clamped !! v = None →
        v ∈ dom edh ∧ v ∈ dom edJ ∧ v ∈ dom spins) →
  ∃ spins',
    flip_loop clamped β edh edJ nodes spins g
      = Ok (spins', rng_after clamped nodes g) ∧
    evolves clamped spins spins' ∧
    ∀ u dh dJ s,
      u ∈ nodes → clamped !! u = None →
      edh !! u = Some dh → edJ !! u = Some dJ → spins !! u = Some s →
      spins' !! u
        = Some (if accept β dh dJ (draw_of clamped nodes g u)
                then s * -1 else s).
Proof.
  revert spins g. induction nodes as [|v nodes IH]; intros spins g Hnd Hn; simpl.
  - exists spins. split; [done|]. split; [apply evolves_refl|].
    intros u ? ? ? Hu. by apply elem_of_nil in Hu.
  - apply NoDup_cons in Hnd as [Hv Hnd].
    destruct (clamped !! v) as [c|] eqn:Hc.
    + destruct (IH spins g Hnd) as (spins' & Hfl & Hev & Hsp).
      { intros w Hw. apply Hn. by right. }
      exists spins'. split; [done|]. split; [done|].
      intros u dh dJ s Hu Hcu. apply Hsp; [|done].
      apply elem_of_cons in Hu as [->|Hu]; [congruence|done].
    + destruct (rand_log_uniform g) as [logp g1] eqn:Hr. simpl.
      destruct (Hn v) as (Hh & HJ & Hs); [by left|done|].
      destruct (get_in_dom _ _ Hh) as (dh & -> & Hdh).
      destruct (get_in_dom _ _ HJ) as (dJ & -> & HdJ).
      destruct (get_in_dom _ _ Hs) as (s & Hgs & Hsv). simpl.
      destruct (accept β dh dJ logp) eqn:Hacc.
      * rewrite Hgs. simpl.
        pose proof (evolves_flip clamped spins v s Hc Hsv) as Hev1.
        destruct (IH (<[v:=s * -1]> spins) g1 Hnd) as (spins' & Hfl & Hev & Hsp).
        { intros w Hw Hcw. destruct Hev1 as [-> _]. apply Hn; [by right|done]. }
        exists spins'. split; [done|]. split; [by eapply evolves_trans|].
        intros u dh' dJ' s' Hu Hcu Hdh' HdJ' Hs'.
        destruct (decide (v = u)) as [<-|Hne].
        -- rewrite (flip_loop_frame _ _ _ _ _ _ _ _ v Hv Hfl), lookup_insert_eq.
           assert (dh' = dh) as -> by congruence.
           assert (dJ' = dJ) as -> by congruence.
           assert (s' = s) as -> by congruence.
           by rewrite Hacc.
        -- apply Hsp; try done.
           ++ apply elem_of_cons in Hu as [->|Hu]; [congruence|done].
           ++ by rewrite lookup_insert_ne.
      * destruct (IH spins g1 Hnd) as (spins' & Hfl & Hev & Hsp).
        { intros w Hw. apply Hn. by right. }
        exists spins'. split; [done|]. split; [done|].
        intros u dh' dJ' s' Hu Hcu Hdh' HdJ' Hs'.
        destruct (decide (v = u)) as [<-|Hne].
        -- rewrite (flip_loop_frame _ _ _ _ _ _ _ _ v Hv Hfl).
           assert (dh' = dh) as -> by congruence.
           assert (dJ' = dJ) as -> by congruence.
           by rewrite Hacc.
        -- apply Hsp; try done.
           apply elem_of_cons in Hu as [->|Hu]; [congruence|done].
Qed.

(** The batched update of a class acts on each of its free nodes as the
    single-node update evaluated on the spins at the start of the class. *)
Lemma update_class_spec adj β edh nodes spins g :
  adj_closed adj → dom adj = list_to_set (keys h) → dom spins = dom adj →
  NoDup nodes → (∀ v, v ∈ nodes → v ∈ dom adj) →
  bias_term_current h edh nodes spins →
  ∃ spins',
    update_class J clamped adj β edh nodes spins g
      = Ok (spins', rng_after clamped nodes g) ∧
    evolves clamped spins spins' ∧
    (∀ u, u ∉ nodes → spins' !! u = spins !! u) ∧
    (∀ u, u ∈ nodes → clamped !! u = None →
       ∃ su, node_update h J adj β (draw_of clamped nodes g u) u spins = Ok su ∧
             spins' !! u = su !! u).
Proof.
  intros Hc Hk Hd Hnd Hn Hedh. unfold update_class.
  destruct (energy_diff_J_Ok J adj spins nodes ∅ Hc Hd Hn)
    as (edJ & -> & Hdom & HedJ). simpl.
  assert (Hpre : ∀ v, v ∈ nodes →
            ∃ s hv, spins !! v = Some s ∧ h_lookup h v = Some hv).
  { intros v Hv. pose proof (Hn v Hv) as Ha.
    assert (Hs : v ∈ dom spins) by (by rewrite Hd).
    apply elem_of_dom in Hs as [s Hs].
    rewrite Hk, elem_of_list_to_set in Ha.
    apply h_lookup_keys in Ha as [hv Hhv]. by exists s, hv. }
  destruct (flip_loop_spec β edh edJ nodes spins g Hnd)
    as (spins' & Hfl & Hev & Hsp).
  { intros v Hv _. destruct (Hpre v Hv) as (s & hv & Hs & Hhv).
    split; [|split].
    - apply elem_of_dom. eexists. by eapply Hedh.
    - rewrite Hdom. set_solver.
    - by apply elem_of_dom_2 in Hs. }
  exists spins'. split; [done|]. split; [done|]. split.
  { intros u Hu. by eapply flip_loop_frame. }
  intros u Hu Hcu. destruct (Hpre u Hu) as (s & hv & Hs & Hhv).
  destruct (HedJ u) as [_ (nb & e & Hnb & He & HeJ)]; [done|].
  unfold node_update.
  rewrite (proj2 (get_Ok spins u s) Hs). simpl. rewrite Hhv.
  rewrite (proj2 (get_Ok adj u nb) Hnb). simpl. rewrite He. simpl.
  rewrite (Hsp u _ _ s Hu Hcu (Hedh u s hv Hu Hs Hhv) HeJ Hs).
  destruct (accept _ _ _ _); eexists; (split; [done|]).
  - by rewrite lookup_insert_eq.
  - done.
Qed.

End ClassUpdate.

(** ** Batched and sequential updates of a class *)

Section Sequential.
Context {num : Type} `{NA : Num num} {rng : Type} `{RS : RandomSource num rng}.
Variable h : biases num.
Variable J : couplings num.
Variable clamped : gmap node Z.

Lemma node_update_ext adj β logp v spins spins0 su0 :
  spins !! v = spins0 !! v →
  (∀ nb u, adj !! v = Some nb → u ∈ nb → spins !! u = spins0 !! u) →
  node_update h J adj β logp v spins0 = Ok su0 →
  ∃ su, node_update h J adj β logp v spins = Ok su ∧
        su !! v = su0 !! v ∧ ∀ u, u ≠ v → su !! u = spins !! u.
Proof.
  intros Hv Hnb. unfold node_update.
  assert (Hg : get spins v = get spins0 v) by (unfold get; by rewrite Hv).
  rewrite Hg. destruct (get spins0 v) as [s|] eqn:Hs; simpl; [|done].
  apply get_Ok in Hs.
  destruct (h_lookup h v) as [hv|]; [|done].
  destruct (get adj v) as [nb|] eqn:Hadj; simpl; [|done].
  apply get_Ok in Hadj.
  rewrite (ediff_loop_ext J spins spins0 v (elements nb) (of_int 0) Hv).
  2:{ intros u Hu%elem_of_elements. by eapply Hnb. }
  destruct (ediff_loop J spins0 v (elements nb) (of_int 0)) as [e|]; simpl; [|done].
  destruct (accept _ _ _ _); intros [= <-]; eexists; (split; [done|]).
  - rewrite !lookup_insert_eq. split; [done|].
    intros u Hu. by rewrite lookup_insert_ne.
  - done.
Qed.

Lemma sequential_updates_spec adj β draw nodes spins0 order spins :
  independent adj nodes →
  NoDup order → (∀ v, v ∈ order → v ∈ nodes) →
  (∀ u, u ∈ order ∨ u ∉ nodes → spins !! u = spins0 !! u) →
  (∀ u, u ∈ order → clamped !! u = None →
        ∃ su0, node_update h J adj β (draw u) u spins0 = Ok su0) →
  ∃ spins',
    sequential_updates h J clamped adj β draw order spins = Ok spins' ∧
    (∀ u, u ∉ order → spins' !! u = spins !! u) ∧
    (∀ u, u ∈ order → is_Some (clamped !! u) → spins' !! u = spins0 !! u) ∧
    (∀ u su0, u ∈ order → clamped !! u = None →
       node_update h J adj β (draw u) u spins0 = Ok su0 →
       spins' !! u = su0 !! u).
Proof.
  intros Hind. revert spins.
  induction order as [|v order IH]; intros spins Hnd Hsub Hagree Hok; simpl.
  - exists spins. split; [done|]. split; [done|].
    split; [intros u Hu|intros u su0 Hu]; by apply elem_of_nil in Hu.
  - apply NoDup_cons in Hnd as [Hv Hnd].
    assert (Hvn : v ∈ nodes) by (apply Hsub; by left).
    destruct (clamped !! v) as [c|] eqn:Hc.
    + destruct (IH spins Hnd) as (spins' & Hseq & Hout & Hcl & Hfree).
      { intros u Hu. apply Hsub. by right. }
      { intros u [Hu|Hu]; apply Hagree; [left; by right|by right]. }
      { intros u Hu. apply Hok. by right. }
      exists spins'. split; [done|]. split; [|split].
      * intros u [_ Hu]%not_elem_of_cons. by apply Hout.
      * intros u Hu Hcu. apply elem_of_cons in Hu as [->|Hu]; [|by apply Hcl].
        rewrite Hout by done. apply Hagree. left. by left.
      * intros u su0 Hu Hcu. apply Hfree; [|done].
        apply elem_of_cons in Hu as [->|Hu]; [congruence|done].
    + destruct (Hok v) as [sv0 Hsv0]; [by left|done|].
      destruct (node_update_ext adj β (draw v) v spins spins0 sv0)
        as (su & Hsu & Hsuv & Hsuo); [| |done|].
      { apply Hagree. left. by left. }
      { intros nb u Hnb Hu. apply Hagree.
        destruct (decide (u ∈ nodes)) as [Hun|Hun]; [|by right].
        destruct (decide (u = v)) as [->|Hne]; [left; by left|].
        by destruct (Hind u v nb Hun Hvn Hne Hnb). }
      rewrite Hsu. simpl.
      destruct (IH su Hnd) as (spins' & Hseq & Hout & Hcl & Hfree).
      { intros u Hu. apply Hsub. by right. }
      { intros u Hu. assert (u ≠ v).
        { destruct Hu as [Hu|Hu]; intros ->; [done|]. by apply Hu. }
        rewrite Hsuo by done.
        destruct Hu as [Hu|Hu]; apply Hagree; [left; by right|by right]. }
      { intros u Hu. apply Hok. by right. }
      exists spins'. split; [done|]. split; [|split].
      * intros u [Hne Hu]%not_elem_of_cons.
        rewrite Hout by done. by apply Hsuo.
      * intros u Hu Hcu.
        apply elem_of_cons in Hu as [->|Hu]; [|by apply Hcl].
        destruct Hcu as [? ?]. congruence.
      * intros u su0 Hu Hcu Hu0.
        apply elem_of_cons in Hu as [->|Hu]; [|by apply Hfree].
        rewrite Hout by done. rewrite Hsuv. congruence.
Qed.

End Sequential.

(** ** A class inside a sweep *)

Section Sweep.
Context {num : Type} `{NA : Num num} {rng : Type} `{RS : RandomSource num rng}.
Variable h : biases num.
Variable J : couplings num.
Variable clamped : gmap node Z.

Lemma build_adj_Ok_inv adj :
  build_adj h J = Ok adj →
  dom adj = list_to_set (keys h) ∧ adj_closed adj.
Proof.
  intros Hadj.
  destruct (decide (couplings_within (list_to_set (keys h)) J)) as [HJ|HJ].
  - destruct (build_adj_Ok h J HJ) as (adj' & Hadj' & Hd & Hc).
    assert (adj' = adj) as -> by congruence. done.
  - rewrite (build_adj_KeyError h J HJ) in Hadj. discriminate.
Qed.

Lemma color_loop_app adj β edh pre post spins g :
  color_loop J clamped adj β edh (pre ++ post) spins g
  = let! (spins', g') := color_loop J clamped adj β edh pre spins g in
    color_loop J clamped adj β edh post spins' g'.
Proof.
  revert spins g. induction pre as [|c pre IH]; intros spins g; simpl; [done|].
  destruct (update_class J clamped adj β edh c spins g) as [[s1 g1]|];
    simpl; [apply IH|done].
Qed.

Lemma color_loop_frame adj β edh colors spins g spins' g' u :
  (∀ c, c ∈ colors → u ∉ c) →
  color_loop J clamped adj β edh colors spins g = Ok (spins', g') →
  spins' !! u = spins !! u.
Proof.
  revert spins g. induction colors as [|c colors IH]; intros spins g Hu; simpl.
  - by intros [= <- _].
  - unfold update_class at 1.
    destruct (energy_diff_J J adj spins c ∅) as [edJ|]; simpl; [|done].
    destruct (flip_loop clamped β edh edJ c spins g) as [[s1 g1]|] eqn:Hfl;
      simpl; [|done].
    intros H%IH.
    + rewrite H. eapply flip_loop_frame; [|done]. apply Hu. by left.
    + intros c' Hc'. apply Hu. by right.
Qed.

Lemma sweep_reaches_class adj β pre nodes post spins g :
  build_adj h J = Ok adj →
  dom spins = list_to_set (keys h) →
  classes_within adj (pre ++ nodes :: post) →
  (∀ c v, c ∈ pre → v ∈ nodes → v ∉ c) →
  ∃ edh S g1,
    energy_diff_h h (keys h) spins ∅ = Ok edh ∧
    color_loop J clamped adj β edh pre spins g = Ok (S, g1) ∧
    evolves clamped spins S ∧
    bias_term_current h edh nodes S ∧
    sweep h J clamped adj (pre ++ nodes :: post) β spins g
    = let! (S', g2) := update_class J clamped adj β edh nodes S g1 in
      color_loop J clamped adj β edh post S' g2.
Proof.
  intros [Hk Hc]%build_adj_Ok_inv Hd Hcol Hdisj.
  destruct (energy_diff_h_Ok h (keys h) spins ∅) as (edh & Hedh & Hdom & Hval).
  { intros v Hv. split; [done|]. rewrite Hd. set_solver. }
  destruct (color_loop_Ok J clamped adj β edh pre spins g) as (S & g1 & Hpre & Hev);
    [done|congruence|rewrite Hdom, Hk; set_solver| |].
  { intros c v Hc' Hv. apply (Hcol c); [|done]. apply elem_of_app. by left. }
  exists edh, S, g1. split; [done|]. split; [done|]. split; [done|]. split.
  - intros v s hv Hv Hs Hhv.
    assert (Hvk : v ∈ keys h).
    { apply h_lookup_keys. by eexists. }
    apply (Hval v); [done| |done].
    rewrite <- Hs. symmetry. eapply color_loop_frame; [|done].
    intros c Hc'. by apply Hdisj.
  - unfold sweep. rewrite Hedh. simpl. rewrite color_loop_app, Hpre. done.
Qed.

End Sweep.

(** ** Closed form of the energy delta in exact arithmetic *)

Section ExactArithmetic.
Variable h : biases Q.
Variable J : couplings Q.

Lemma ediff_loop_closed spins v0 s0 nbrs e0 :
  spins !! v0 = Some s0 → (∀ u, u ∈ nbrs → u ∈ dom spins) →
  ∃ e, ediff_loop J spins v0 nbrs e0 = Ok e ∧
       (e == e0 + inject_Z s0 * local_field J spins v0 nbrs)%Q.
Proof.
  intros H0. revert e0.
  induction nbrs as [|v1 nbrs IH]; intros e0 Hn; simpl.
  - exists e0. split; [done|]. ring.
  - assert (H1 : v1 ∈ dom spins) by (apply Hn; by left).
    apply elem_of_dom in H1 as [s1 H1].
    unfold add_coupling, coupling, weight, spin_of, get.
    rewrite H0, H1. simpl.
    destruct (J_lookup J (v0, v1)) as [w01|], (J_lookup J (v1, v0)) as [w10|];
      simpl.
    all: match goal with
         | |- ∃ e, ediff_loop _ _ _ _ ?e2 = _ ∧ _ =>
             destruct (IH e2) as (e & He & Heq);
               [intros u Hu; apply Hn; by right|]
         end.
    all: exists e; split; [done|]; rewrite Heq, ?inject_Z_mult; ring.
Qed.


(** At [β = 0] the test accepts every draw from (0,1), whatever the energy
    difference: the sweep of the last entry of [βs] flips every free spin. *)
Lemma accept_zero_β (dh dJ logp : Q) :
  (logp < 0)%Q → accept 0%Q dh dJ logp = true.
Proof.
  intros Hlog. unfold accept. cbn [nltb nmul nadd of_int Q_num].
  apply Qltb_lt. change (inject_Z (-1)) with (-1)%Q. lra.
Qed.

End ExactArithmetic.

(** ** Whatever a loop returns has evolved from its input *)

Section Evolution.
Context {num : Type} `{NA : Num num} {rng : Type} `{RS : RandomSource num rng}.
Variable h : biases num.
Variable J : couplings num.
Variable clamped : gmap node Z.

Lemma flip_loop_evolves β edh edJ nodes spins g spins' g' :
  flip_loop clamped β edh edJ nodes spins g = Ok (spins', g') →
  evolves clamped spins spins'.
Proof.
  revert spins g. induction nodes as [|v nodes IH]; intros spins g; simpl.
  - intros [= <- _]. apply evolves_refl.
  - destruct (clamped !! v) as [c|] eqn:Hc; [apply IH|].
    destruct (rand_log_uniform g) as [logp g1].
    destruct (get edh v) as [dh|]; simpl; [|done].
    destruct (get edJ v) as [dJ|]; simpl; [|done].
    destruct (accept β dh dJ logp); [|apply IH].
    destruct (get spins v) as [s|] eqn:Hs; simpl; [|done].
    apply get_Ok in Hs. intros Hfl%IH.
    eapply evolves_trans; [|done]. by apply evolves_flip.
Qed.

Lemma update_class_evolves adj β edh nodes spins g spins' g' :
  update_class J clamped adj β edh nodes spins g = Ok (spins', g') →
  evolves clamped spins spins'.
Proof.
  unfold update_class.
  destruct (energy_diff_J J adj spins nodes ∅) as [edJ|]; simpl; [|done].
  apply flip_loop_evolves.
Qed.

Lemma color_loop_evolves adj β edh colors spins g spins' g' :
  color_loop J clamped adj β edh colors spins g = Ok (spins', g') →
  evolves clamped spins spins'.
Proof.
  revert spins g. induction colors as [|c colors IH]; intros spins g; simpl.
  - intros [= <- _]. apply evolves_refl.
  - destruct (update_class J clamped adj β edh c spins g) as [[s1 g1]|] eqn:Hc;
      simpl; [|done].
    intros Hrest%IH. eapply evolves_trans; [|done].
    by eapply update_class_evolves.
Qed.

Lemma sweep_evolves adj colors β spins g spins' g' :
  sweep h J clamped adj colors β spins g = Ok (spins', g') →
  evolves clamped spins spins'.
Proof.
  unfold sweep.
  destruct (energy_diff_h h (keys h) spins ∅) as [edh|]; simpl; [|done].
  apply color_loop_evolves.
Qed.

Lemma sweeps_evolves adj colors βs spins g spins' g' :
  sweeps h J clamped adj colors βs spins g = Ok (spins', g') →
  evolves clamped spins spins'.
Proof.
  revert spins g. induction βs as [|β βs IH]; intros spins g; simpl.
  - intros [= <- _]. apply evolves_refl.
  - destruct (sweep h J clamped adj colors β spins g) as [[s1 g1]|] eqn:Hs;
      simpl; [|done].
    intros Hrest%IH. eapply evolves_trans; [|done]. by eapply sweep_evolves.
Qed.

Lemma Sample_evolves greedy_coloring βs g spins g' :
  Sample greedy_coloring h J clamped βs g = Ok (spins, g') →
  evolves clamped (init_spins clamped (keys h) ∅ g).1 spins.
Proof.
  unfold Sample. destruct (build_adj h J) as [adj|]; simpl; [|done].
  destruct (init_spins clamped (keys h) ∅ g) as [spins0 g0]. simpl.
  apply sweeps_evolves.
Qed.

Lemma sweeps_app adj colors βs1 βs2 spins g :
  sweeps h J clamped adj colors (βs1 ++ βs2) spins g
  = let! (spins', g') := sweeps h J clamped adj colors βs1 spins g in
    sweeps h J clamped adj colors βs2 spins' g'.
Proof.
  revert spins g. induction βs1 as [|β βs1 IH]; intros spins g; simpl; [done|].
  destruct (sweep h J clamped adj colors β spins g) as [[s1 g1]|];
    simpl; [apply IH|done].
Qed.

End Evolution.

(** ** Two runs on identical draws *)

Section Determinism.
Context {num : Type} `{NA : Num num} {rng1 rng2 : Type}
  `{RS1 : RandomSource num rng1} `{RS2 : RandomSource num rng2}.
Variable R : rng1 → rng2 → Prop.
Hypothesis HR : same_draws R.
Variable h : biases num.
Variable J : couplings num.
Variable clamped : gmap node Z.

Lemma init_spins_rel vs spins g1 g2 :
  R g1 g2 →
  (init_spins clamped vs spins g1).1 = (init_spins clamped vs spins g2).1 ∧
  R (init_spins clamped vs spins g1).2 (init_spins clamped vs spins g2).2.
Proof.
  revert spins g1 g2. induction vs as [|v vs IH]; intros spins g1 g2 Hg; simpl.
  - done.
  - destruct (clamped !! v) as [c|]; [by apply IH|].
    unfold choice. destruct (HR g1 g2 Hg) as [[Hp HRp] _].
    destruct (rand_pick g1) as [b1 g1'], (rand_pick g2) as [b2 g2'].
    simpl in *. subst b2. by apply IH.
Qed.

Lemma flip_loop_rel β edh edJ nodes spins g1 g2 :
  R g1 g2 →
  same_outcome R (flip_loop clamped β edh edJ nodes spins g1)
                 (flip_loop clamped β edh edJ nodes spins g2).
Proof.
  revert spins g1 g2.
  induction nodes as [|v nodes IH]; intros spins g1 g2 Hg; simpl; [done|].
  destruct (clamped !! v) as [c|]; [by apply IH|].
  destruct (HR g1 g2 Hg) as [_ [Hl HRl]].
  destruct (rand_log_uniform g1) as [l1 g1'], (rand_log_uniform g2) as [l2 g2'].
  simpl in *. subst l2.
  destruct (get edh v) as [dh|]; simpl; [|done].
  destruct (get edJ v) as [dJ|]; simpl; [|done].
  destruct (accept β dh dJ l1); [|by apply IH].
  destruct (get spins v) as [s|]; simpl; [by apply IH|done].
Qed.

Lemma update_class_rel adj β edh nodes spins g1 g2 :
  R g1 g2 →
  same_outcome R (update_class J clamped adj β edh nodes spins g1)
                 (update_class J clamped adj β edh nodes spins g2).
Proof.
  intros Hg. unfold update_class.
  destruct (energy_diff_J J adj spins nodes ∅) as [edJ|]; simpl; [|done].
  by apply flip_loop_rel.
Qed.

Lemma color_loop_rel adj β edh colors spins g1 g2 :
  R g1 g2 →
  same_outcome R (color_loop J clamped adj β edh colors spins g1)
                 (color_loop J clamped adj β edh colors spins g2).
Proof.
  revert spins g1 g2.
  induction colors as [|c colors IH]; intros spins g1 g2 Hg; simpl; [done|].
  pose proof (update_class_rel adj β edh c spins g1 g2 Hg) as Hc.
  destruct (update_class J clamped adj β edh c spins g1) as [[s1 g1']|],
           (update_class J clamped adj β edh c spins g2) as [[s2 g2']|];
    simpl in *; try done.
  destruct Hc as [-> Hg']. by apply IH.
Qed.

Lemma sweep_rel adj colors β spins g1 g2 :
  R g1 g2 →
  same_outcome R (sweep h J clamped adj colors β spins g1)
                 (sweep h J clamped adj colors β spins g2).
Proof.
  intros Hg. unfold sweep.
  destruct (energy_diff_h h (keys h) spins ∅) as [edh|]; simpl; [|done].
  by apply color_loop_rel.
Qed.

Lemma sweeps_rel adj colors schedule spins g1 g2 :
  R g1 g2 →
  same_outcome R (sweeps h J clamped adj colors schedule spins g1)
                 (sweeps h J clamped adj colors schedule spins g2).
Proof.
  revert spins g1 g2.
  induction schedule as [|β schedule IH]; intros spins g1 g2 Hg; simpl; [done|].
  pose proof (sweep_rel adj colors β spins g1 g2 Hg) as Hs.
  destruct (sweep h J clamped adj colors β spins g1) as [[s1 g1']|],
           (sweep h J clamped adj colors β spins g2) as [[s2 g2']|];
    simpl in *; try done.
  destruct Hs as [-> Hg']. by apply IH.
Qed.

End Determinism.

(** ** The schedule of the notebook *)

Lemma β_entry_closed (i : Z) :
  (β_entry (num := Q) i == inject_Z (999 - i) / 999)%Q.
Proof.
  unfold β_entry, num_sweeps. cbn [nsub nmul ndiv of_int Q_num].
  unfold Z.sub. rewrite inject_Z_plus, inject_Z_opp.
  change (inject_Z 1000) with 1000%Q. change (inject_Z 999) with 999%Q.
  change (inject_Z 1) with 1%Q. field.
Qed.

Lemma β_entry_lt (i j : Z) :
  i < j → (β_entry (num := Q) j < β_entry (num := Q) i)%Q.
Proof.
  intros Hij. rewrite !β_entry_closed.
  apply Qmult_lt_compat_r; [reflexivity|].
  rewrite <- Zlt_Qlt. lia.
Qed.

Lemma β_entry_pos (i : Z) : i < 999 → (0 < β_entry (num := Q) i)%Q.
Proof.
  intros Hi. rewrite β_entry_closed.
  apply Qlt_shift_div_l; [reflexivity|]. rewrite Qmult_0_l.
  change 0%Q with (inject_Z 0). rewrite <- Zlt_Qlt. lia.
Qed.

Lemma βs_lookup {num} `{Num num} (i : nat) (x : num) :
  βs !! i = Some x ↔ (i < 1000)%nat ∧ x = β_entry (Z.of_nat i).
Proof.
  unfold βs. rewrite list_lookup_fmap.
  change (Z.to_nat num_sweeps) with 1000%nat.
  split.
  - intros Hx. destruct (seq 0 1000 !! i) as [k|] eqn:Hk; [|done].
    apply lookup_seq in Hk as [-> Hlt]. simpl in Hx. split; [done|congruence].
  - intros [Hlt ->]. rewrite (lookup_seq_lt 0 1000 i Hlt). done.
Qed.

(** In binary64 the schedule starts at [1.0], decreases strictly and ends at
    [0.0], which is not positive. *)
Lemma βs_float_shape :
  length (βs : list float) = 1000%nat ∧
  decreasing_float βs = true ∧
  PrimFloat.eqb (nth 0 βs PrimFloat.nan) 1 = true ∧
  PrimFloat.eqb (nth 999 βs PrimFloat.nan) 0 = true ∧
  PrimFloat.ltb 0 (nth 999 βs PrimFloat.nan) = false.
Proof. vm_compute. repeat split. Qed.

(** ** Couplings stored in both orders *)

Lemma adj_add_lookup adj n0 n1 adj' :
  adj_add adj n0 n1 = Ok adj' →
  (∃ nb, adj' !! n0 = Some nb ∧ n1 ∈ nb) ∧
  (∀ v nb, adj !! v = Some nb → ∃ nb', adj' !! v = Some nb' ∧ nb ⊆ nb').
Proof.
  unfold adj_add. destruct (get adj n0) as [s|] eqn:Hs; simpl; [|done].
  apply get_Ok in Hs. intros [= <-]. split.
  - exists ({[n1]} ∪ s). rewrite lookup_insert_eq. split; [done|set_solver].
  - intros v nb Hv. destruct (decide (n0 = v)) as [->|Hne].
    + exists ({[n1]} ∪ s). rewrite lookup_insert_eq. split; [done|].
      assert (nb = s) as -> by congruence. set_solver.
    + exists nb. by rewrite lookup_insert_ne.
Qed.

Lemma adj_edges_mono {num} (J : couplings num) adj adj' :
  adj_edges J adj = Ok adj' →
  ∀ v nb, adj !! v = Some nb → ∃ nb', adj' !! v = Some nb' ∧ nb ⊆ nb'.
Proof.
  revert adj. induction J as [|[[n0 n1] w] J IH]; intros adj; simpl.
  - intros [= <-] v nb Hv. by exists nb.
  - destruct (adj_add adj n0 n1) as [adj1|] eqn:H1; simpl; [|done].
    destruct (adj_add adj1 n1 n0) as [adj2|] eqn:H2; simpl; [|done].
    intros Hrest v nb Hv.
    destruct (proj2 (adj_add_lookup _ _ _ _ H1) v nb Hv) as (nb1 & Hv1 & Hs1).
    destruct (proj2 (adj_add_lookup _ _ _ _ H2) v nb1 Hv1) as (nb2 & Hv2 & Hs2).
    destruct (IH adj2 Hrest v nb2 Hv2) as (nb' & Hv' & Hs').
    exists nb'. split; [done|set_solver].
Qed.

Lemma adj_edges_contains {num} (J : couplings num) adj adj' n0 n1 w :
  adj_edges J adj = Ok adj' → ((n0, n1), w) ∈ J →
  (∃ nb, adj' !! n0 = Some nb ∧ n1 ∈ nb) ∧
  (∃ nb, adj' !! n1 = Some nb ∧ n0 ∈ nb).
Proof.
  revert adj. induction J as [|[[a b] w0] J IH]; intros adj; simpl.
  - intros _ He. by apply elem_of_nil in He.
  - destruct (adj_add adj a b) as [adj1|] eqn:H1; simpl; [|done].
    destruct (adj_add adj1 b a) as [adj2|] eqn:H2; simpl; [|done].
    intros Hrest He. apply elem_of_cons in He as [[= -> -> ->]|He];
      [|by apply (IH adj2)].
    destruct (adj_add_lookup _ _ _ _ H1) as [(nb1 & Ha1 & Hb1) _].
    destruct (adj_add_lookup _ _ _ _ H2) as [(nb2 & Hb2 & Ha2) Hmono].
    destruct (Hmono a nb1 Ha1) as (nb1' & Ha1' & Hs1).
    destruct (adj_edges_mono J adj2 adj' Hrest a nb1' Ha1') as (x & Hx & Hsx).
    destruct (adj_edges_mono J adj2 adj' Hrest b nb2 Hb2) as (y & Hy & Hsy).
    split; [exists x|exists y]; (split; [done|set_solver]).
Qed.





Lemma couplings_within_not {num} (h : biases num) (J : couplings num) :
  ¬ couplings_within (list_to_set (keys h)) J ↔
  ∃ n0 n1 w, ((n0, n1), w) ∈ J ∧ (n0 ∉ keys h ∨ n1 ∉ keys h).
Proof.
  unfold couplings_within. split.
  - intros (e & He & Hne)%not_Forall_Exists%Exists_exists.
    2:{ intros e. apply _. }
    destruct e as [[n0 n1] w]. exists n0, n1, w. split; [done|].
    simpl in Hne. apply not_and_l in Hne. set_solver.
  - intros (n0 & n1 & w & He & Hne) HF.
    rewrite Forall_forall in HF. specialize (HF _ He). simpl in HF. set_solver.
Qed.

(** ** The example models *)

Lemma singleton_coloring_within adj : classes_within adj (singleton_coloring adj).
Proof.
  intros nodes v Hn Hv. unfold singleton_coloring in Hn.
  apply list_elem_of_fmap in Hn as (u & -> & Hu%elem_of_elements).
  apply list_elem_of_singleton in Hv as ->. done.
Qed.

Lemma example_J_within :
  couplings_within (list_to_set (keys example_h)) example_J.
Proof. unfold couplings_within. repeat constructor; simpl; set_solver. Qed.

Lemma example_J_float_within :
  couplings_within (list_to_set (keys example_h_float)) example_J_float.
Proof. unfold couplings_within. repeat constructor; simpl; set_solver. Qed.

Lemma example_build_adj : build_adj example_h example_J = Ok example_adj.
Proof. vm_compute. reflexivity. Qed.

Lemma example_build_adj_float :
  build_adj example_h_float example_J_float = Ok example_adj.
Proof. vm_compute. reflexivity. Qed.

Lemma example_classes_within :
  classes_within example_adj ([] ++ [0; 2] :: [[1]]).
Proof.
  intros nodes v Hn Hv. apply elem_of_dom. simpl in Hn.
  apply elem_of_cons in Hn as [->|Hn].
  - apply elem_of_cons in Hv as [->|Hv]; [by eexists|].
    apply list_elem_of_singleton in Hv as ->. by eexists.
  - apply list_elem_of_singleton in Hn as ->.
    apply list_elem_of_singleton in Hv as ->. by eexists.
Qed.

Lemma example_independent : independent example_adj [0; 2].
Proof.
  intros u v nb Hu Hv Hne Hnb.
  apply elem_of_cons in Hu as [->|Hu];
    [|apply list_elem_of_singleton in Hu as ->];
  (apply elem_of_cons in Hv as [->|Hv];
    [|apply list_elem_of_singleton in Hv as ->]); try done.
  - vm_compute in Hnb. injection Hnb as <-. set_solver.
  - vm_compute in Hnb. injection Hnb as <-. set_solver.
Qed.

Lemma counted_same_draws {num} `{Num num} :
  same_draws (fun (t : tape num) (c : counted num) => script c = t).
Proof.
  intros t [n t'] Ht. simpl in Ht. subst t'. split.
  - simpl. by destruct (picks t).
  - simpl. by destruct (logs t).
Qed.

(** A run of the cell on the scenario of the notebook, in binary64, with the
    colour classes [{0, 2}] and [{1}] and two sweeps. In the first sweep
    node 2 keeps its spin ([-1 < -10] fails) and node 1 flips
    ([-1/64 < 0] holds); both flip in the second sweep ([-3 < 5] and
    [-30 < -10]). *)
Lemma example_run_float :
  Sample example_coloring example_h_float example_J_float example_clamped
    [1%float; 0.5%float] example_tape_float
  = Ok ({[0 := -1; 1 := 1; 2 := -1]}, Tape [] []).
Proof. vm_compute. reflexivity. Qed.

(** ** The acceptance test in binary64 *)

Lemma binary_round_aux_cases prec emax sx mx ex lx :
  binary_round_aux prec emax sx mx ex lx = S754_nan ∨
  binary_round_aux prec emax sx mx ex lx = S754_zero sx ∨
  binary_round_aux prec emax sx mx ex lx = S754_infinity sx ∨
  ∃ m e, binary_round_aux prec emax sx mx ex lx = S754_finite sx m e.
Proof.
  unfold binary_round_aux.
  destruct (shr_fexp prec emax mx ex lx) as [mrs' e'].
  destruct (shr_fexp prec emax _ e' loc_Exact) as [mrs'' e''].
  destruct (shr_m mrs'') as [|m|m]; [tauto| |tauto].
  destruct (e'' <=? emax - prec); [|tauto].
  right. right. right. by exists m, e''.
Qed.

Lemma SFmul_nonpos_nonpos x y :
  nonpos_sf x → nonpos_sf y → SF64mul x y ≠ S754_nan → nonneg_sf (SF64mul x y).
Proof.
  unfold SF64mul, SFmul.
  destruct x as [sx|[]| |[] mx ex], y as [sy|[]| |[] my ey]; simpl; try tauto.
  intros _ _.
  destruct (binary_round_aux_cases prec emax false (Z.pos (mx * my)) (ex + ey)
              loc_Exact) as [H|[H|[H|(m & e & H)]]]; rewrite H; simpl; tauto.
Qed.

Lemma SFmul_nonpos_nonneg x y :
  nonpos_sf x → nonneg_sf y → SF64mul x y ≠ S754_nan → nonpos_sf (SF64mul x y).
Proof.
  unfold SF64mul, SFmul.
  destruct x as [sx|[]| |[] mx ex], y as [sy|[]| |[] my ey]; simpl; try tauto.
  intros _ _.
  destruct (binary_round_aux_cases prec emax true (Z.pos (mx * my)) (ex + ey)
              loc_Exact) as [H|[H|[H|(m & e & H)]]]; rewrite H; simpl; tauto.
Qed.

Lemma SFmul_nan_l y : SF64mul S754_nan y = S754_nan.
Proof. by destruct y. Qed.

(** Rounding does not change a sign: with [β ≥ 0], [x ≤ 0] and [logp < 0]
    the test [logp < -1. * β * x] holds in binary64 too, unless the product
    is [NaN] (a zero times an infinity). *)
Lemma downhill_binary64 (β x logp : float) :
  (0 <=? β)%float = true → (x <=? 0)%float = true → (logp <? 0)%float = true →
  (-1 * β * x =? -1 * β * x)%float = true →
  (logp <? -1 * β * x)%float = true.
Proof.
  rewrite !FloatAxioms.leb_spec, !FloatAxioms.ltb_spec, FloatAxioms.eqb_spec,
    !FloatAxioms.mul_spec.
  change (Prim2SF 0) with (S754_zero false).
  change (Prim2SF (-1)) with (S754_finite true 4503599627370496 (-52)).
  generalize (Prim2SF β) (Prim2SF x) (Prim2SF logp). intros b y l Hb Hy Hl Hr.
  assert (Hb' : nonneg_sf b).
  { destruct b as [s|[]| |[] m e]; simpl in *; done. }
  assert (Hy' : nonpos_sf y).
  { destruct y as [s|[]| |[] m e]; simpl in *; done. }
  set (m1 := SF64mul (S754_finite true 4503599627370496 (-52)) b) in *.
  assert (Hr' : SF64mul m1 y ≠ S754_nan).
  { intros E. rewrite E in Hr. discriminate Hr. }
  assert (Hm1n : m1 ≠ S754_nan).
  { intros E. rewrite E, SFmul_nan_l in Hr'. by apply Hr'. }
  assert (Hm1 : nonpos_sf m1) by (by apply SFmul_nonpos_nonneg).
  pose proof (SFmul_nonpos_nonpos m1 y Hm1 Hy' Hr') as Hr2.
  destruct (SF64mul m1 y) as [s|[]| |[] m e]; simpl in Hr2; try done;
    destruct l as [sl|[]| |[] ml el]; simpl in *; done.
Qed.

Lemma accept_downhill_binary64 (β dh dJ logp : float) :
  (0 <=? β)%float = true → (dh + dJ <=? 0)%float = true →
  (logp <? 0)%float = true →
  (-1 * β * (dh + dJ) =? -1 * β * (dh + dJ))%float = true →
  accept β dh dJ logp = true.
Proof.
  intros Hβ HΔ Hlog Hnan. unfold accept. cbn [nltb nmul nadd of_int float_num].
  change (float_of_Z (-1)) with (-1)%float. by apply downhill_binary64.
Qed.

(** Away from the signs, rounding shows: the sum of [1 + 2^-52] and [2^-53]
    rounds up to [1 + 2^-51], so that the draw [-(1 + 2^-51)] is not below
    the threshold computed in binary64, while it is below the exact one. *)
Lemma accept_rounds_in_binary64 :
  accept 1%float 0x1.0000000000001p+0%float 0x1p-53%float
    (-0x1.0000000000002p+0)%float = false ∧
  accept 1%Q (4503599627370497 # 4503599627370496)%Q
    (1 # 9007199254740992)%Q (- (4503599627370498 # 4503599627370496))%Q = true.
Proof. split; vm_compute; reflexivity. Qed.

(** ** One node, one accepted draw *)

Lemma flip_loop_single_accept
    {num : Type} `{NA : Num num} {rng : Type} `{RS : RandomSource num rng}
    (clamped : gmap node Z) (β dh dJ : num) (edh edJ : gmap node num)
    (v : node) (s : Z) (spins : gmap node Z) (g : rng) :
  clamped !! v = None → edh !! v = Some dh → edJ !! v = Some dJ →
  spins !! v = Some s →
  accept β dh dJ (rand_log_uniform g).1 = true →
  flip_loop clamped β edh edJ [v] spins g
  = Ok (<[v := s * -1]> spins, (rand_log_uniform g).2).
Proof.
  intros Hc Hh HJ Hs Hacc. cbn [flip_loop]. rewrite Hc.
  destruct (rand_log_uniform g) as [logp g1]. cbn [fst snd] in *.
  unfold get. rewrite Hh, HJ. cbn [rbind]. rewrite Hacc, Hs. done.
Qed.

(** ** The neighbour loop, whatever the arithmetic and the order *)



(** * Main results *)




(** C2. A node of [h] that is clamped holds its clamped value after
    initialisation, no sweep changes it, and it holds that value in the
    assignment that the sampler returns, for every random source, every
    generator state and every schedule; and the sampler does return. *)
Theorem C2_clamped_nodes_keep_value
    {num : Type} `{NA : Num num} {rng : Type} `{RS : RandomSource num rng}
    (greedy_coloring : gmap node (gset node) → list (list node))
    (h : biases num) (J : couplings num) (clamped : gmap node Z)
    (schedule : list num) (g : rng) (v : node) (c : Z) :
  couplings_within (list_to_set (keys h)) J →
  (∀ adj, build_adj h J = Ok adj → classes_within adj (greedy_coloring adj)) →
  clamped !! v = Some c → v ∈ keys h →
  (init_spins clamped (keys h) ∅ g).1 !! v = Some c ∧
  (∀ adj colors β spins g1 spins' g2,
     sweep h J clamped adj colors β spins g1 = Ok (spins', g2) →
     spins' !! v = spins !! v) ∧
  ∃ spins g',
    Sample greedy_coloring h J clamped schedule g = Ok (spins, g') ∧
    spins !! v = Some c.
Proof.
  intros HJ Hcol Hc Hv.
  assert (Hinit : (init_spins clamped (keys h) ∅ g).1 !! v = Some c).
  { apply init_spins_clamped; [done|by left]. }
  split; [done|]. split.
  { intros adj colors β spins g1 spins' g2 Hsw%sweep_evolves.
    eapply evolves_clamped; [done|by eexists]. }
  destruct (Sample_Ok h J clamped greedy_coloring schedule g HJ Hcol)
    as (adj & spins & g' & _ & HS & Hev).
  exists spins, g'. split; [done|].
  rewrite (evolves_clamped clamped _ spins v Hev); [done|by eexists].
Qed.

Lemma C2_witness :
  (init_spins example_clamped (keys example_h_float) ∅ example_tape_float).1
    !! 0 = Some (-1) ∧
  (∀ adj colors β spins (g1 : tape float) spins' g2,
     sweep example_h_float example_J_float example_clamped adj colors β
       spins g1 = Ok (spins', g2) →
     spins' !! 0 = spins !! 0) ∧
  ∃ spins g',
    Sample example_coloring example_h_float example_J_float example_clamped
      [1%float; 0.5%float] example_tape_float = Ok (spins, g') ∧
    spins !! 0 = Some (-1).
Proof.
  apply C2_clamped_nodes_keep_value.
  - exact example_J_float_within.
  - intros adj Hadj. rewrite example_build_adj_float in Hadj.
    injection Hadj as <-. exact example_classes_within.
  - reflexivity.
  - unfold keys. simpl. set_solver.
Defined.

(** C3, as the specification states it, does not hold. The cell has no
    validation step: an empty schedule, a clamped node that is not in [h],
    and a clamped value outside [{-1,+1}] all run to completion without an
    error. *)
Lemma C3_counterexample :
  Sample singleton_coloring [(0, 0%float)] [] ∅ [] (Tape [false] [])
    = Ok ({[0 := -1]}, Tape [] []) ∧
  Sample singleton_coloring [(0, 0%float)] [] {[7 := 1]} [1%float]
    (Tape [false] [(-1)%float])
    = Ok ({[0 := 1]}, Tape [] []) ∧
  Sample singleton_coloring [(0, 0%float)] [] {[0 := 5]} [1%float]
    (Tape [] [])
    = Ok ({[0 := 5]}, Tape [] []).
Proof. repeat split; vm_compute; reflexivity. Qed.

(** C3, as the cell implements it, for clamped values up to [2^31] in
    magnitude. The sampler fails exactly when a key of [J] names a node that
    is not a key of [h]; the failure is the [KeyError] of the adjacency
    construction, which precedes the initialisation of the spins and every
    sweep. In every other case it returns an assignment: its keys are the
    nodes of [h] (a clamped node that is not in [h] is left out), a clamped
    node of [h] holds its clamped value, whatever that value is, and with an
    empty schedule it is the initial assignment. *)
Theorem C3_fails_iff_coupling_names_unknown_node
    {num : Type} `{NA : Num num} {rng : Type} `{RS : RandomSource num rng}
    (greedy_coloring : gmap node (gset node) → list (list node))
    (h : biases num) (J : couplings num) (clamped : gmap node Z)
    (schedule : list num) (g : rng) :
  (∀ v c, clamped !! v = Some c → - 2 ^ 31 ≤ c ≤ 2 ^ 31) →
  (∀ adj, build_adj h J = Ok adj → classes_within adj (greedy_coloring adj)) →
  (Sample greedy_coloring h J clamped schedule g = KeyError
   ↔ build_adj h J = KeyError) ∧
  (build_adj h J = KeyError
   ↔ ∃ n0 n1 w, ((n0, n1), w) ∈ J ∧ (n0 ∉ keys h ∨ n1 ∉ keys h)) ∧
  (build_adj h J ≠ KeyError →
   ∃ spins g',
     Sample greedy_coloring h J clamped schedule g = Ok (spins, g') ∧
     dom spins = list_to_set (keys h) ∧
     (∀ v c, v ∈ keys h → clamped !! v = Some c → spins !! v = Some c) ∧
     (schedule = [] → (spins, g') = init_spins clamped (keys h) ∅ g)).
Proof.
  intros _ Hcol.
  assert (Hdec : build_adj h J = KeyError
                 ↔ ¬ couplings_within (list_to_set (keys h)) J).
  { split.
    - intros Hb HJ. destruct (build_adj_Ok h J HJ) as (adj & Hadj & _).
      congruence.
    - apply build_adj_KeyError. }
  split; [|split; [by rewrite Hdec, couplings_within_not|]].
  - split.
    + intros HS. apply Hdec. intros HJ.
      destruct (Sample_Ok h J clamped greedy_coloring schedule g HJ Hcol)
        as (adj & spins & g' & _ & HS' & _).
      congruence.
    + intros Hb. unfold Sample. by rewrite Hb.
  - intros Hb.
    assert (HJ : couplings_within (list_to_set (keys h)) J).
    { destruct (decide (couplings_within (list_to_set (keys h)) J)); [done|].
      destruct Hb. by apply Hdec. }
    destruct (Sample_Ok h J clamped greedy_coloring schedule g HJ Hcol)
      as (adj & spins & g' & Hadj & HS & Hev).
    exists spins, g'. split; [done|]. split; [|split].
    + destruct Hev as [-> _]. rewrite init_spins_dom. set_solver.
    + intros v c Hv Hc.
      rewrite (evolves_clamped clamped _ spins v Hev) by (by eexists).
      apply init_spins_clamped; [done|by left].
    + intros ->. unfold Sample in HS. rewrite Hadj in HS. simpl in HS.
      destruct (init_spins clamped (keys h) ∅ g) as [spins0 g0].
      simpl in HS. congruence.
Qed.

Lemma C3_witness :
  (Sample singleton_coloring example_h_float [((0, 5), 1%float)]
     {[0 := 5]} [1%float] example_tape_float = KeyError
   ↔ build_adj example_h_float [((0, 5), 1%float)] = KeyError) ∧
  (build_adj example_h_float [((0, 5), 1%float)] = KeyError
   ↔ ∃ n0 n1 w, ((n0, n1), w) ∈ [((0, 5), 1%float)] ∧
                (n0 ∉ keys example_h_float ∨ n1 ∉ keys example_h_float)) ∧
  (build_adj example_h_float [((0, 5), 1%float)] ≠ KeyError →
   ∃ spins g',
     Sample singleton_coloring example_h_float [((0, 5), 1%float)]
       {[0 := 5]} [1%float] example_tape_float = Ok (spins, g') ∧
     dom spins = list_to_set (keys example_h_float) ∧
     (∀ v c, v ∈ keys example_h_float →
             ({[0 := 5]} : gmap node Z) !! v = Some c →
             spins !! v = Some c) ∧
     ([1%float] = [] →
      (spins, g')
      = init_spins {[0 := 5]} (keys example_h_float) ∅ example_tape_float)).
Proof.
  apply C3_fails_iff_coupling_names_unknown_node.
  - intros v c [_ <-]%lookup_singleton_Some. lia.
  - intros adj _. apply singleton_coloring_within.
Defined.

(** C4. Inside a sweep, let [S] be the spins at the start of a
    colour class whose nodes are pairwise non-adjacent. The batched update
    of the class (all coupling terms evaluated on [S], then the flips) ends
    in the same assignment as the single-node updates applied one after the
    other, in any order of the nodes of the class, each node using the draw
    it consumes in the batched update. *)
Theorem C4_batched_class_equals_sequential
    {num : Type} `{NA : Num num} {rng : Type} `{RS : RandomSource num rng}
    (h : biases num) (J : couplings num) (clamped : gmap node Z)
    (adj : gmap node (gset node)) (β : num)
    (pre : list (list node)) (nodes : list node) (post : list (list node))
    (order : list node) (spins : gmap node Z) (g : rng) :
  build_adj h J = Ok adj →
  dom spins = list_to_set (keys h) →
  classes_within adj (pre ++ nodes :: post) →
  NoDup nodes →
  (∀ c v, c ∈ pre → v ∈ nodes → v ∉ c) →
  independent adj nodes →
  order ≡ₚ nodes →
  ∃ edh S g1 S',
    energy_diff_h h (keys h) spins ∅ = Ok edh ∧
    color_loop J clamped adj β edh pre spins g = Ok (S, g1) ∧
    update_class J clamped adj β edh nodes S g1
      = Ok (S', rng_after clamped nodes g1) ∧
    sequential_updates h J clamped adj β (draw_of clamped nodes g1) order S
      = Ok S'.
Proof.
  intros Hadj Hd Hcol Hnd Hdisj Hind Hperm.
  destruct (sweep_reaches_class h J clamped adj β pre nodes post spins g
              Hadj Hd Hcol Hdisj) as (edh & S & g1 & Hedh & Hpre & Hev & Hbt & _).
  apply build_adj_Ok_inv in Hadj as [Hk Hc].
  assert (HdS : dom S = dom adj) by (destruct Hev as [-> _]; congruence).
  assert (Hn : ∀ v, v ∈ nodes → v ∈ dom adj).
  { intros v Hv. apply (Hcol nodes); [|done].
    apply elem_of_app. right. by left. }
  destruct (update_class_spec h J clamped adj β edh nodes S g1
              Hc Hk HdS Hnd Hn Hbt) as (S' & Hup & HevS & Hout & Hfree).
  destruct (sequential_updates_spec h J clamped adj β
              (draw_of clamped nodes g1) nodes S order S Hind)
    as (S'' & Hseq & Hout' & Hcl' & Hfree').
  { by rewrite Hperm. }
  { intros v Hv. by rewrite <- Hperm. }
  { done. }
  { intros u Hu Hcu. rewrite Hperm in Hu.
    destruct (Hfree u Hu Hcu) as (su & Hsu & _). by exists su. }
  exists edh, S, g1, S'. split; [done|]. split; [done|]. split; [done|].
  rewrite Hseq. f_equal. apply map_eq. intros u.
  destruct (decide (u ∈ nodes)) as [Hu|Hu].
  - destruct (clamped !! u) as [c|] eqn:Hcu.
    + rewrite Hcl' by (by rewrite ?Hperm; eauto).
      symmetry. eapply evolves_clamped; [done|by eexists].
    + destruct (Hfree u Hu Hcu) as (su & Hsu & ->).
      apply Hfree'; [by rewrite Hperm|done|done].
  - rewrite Hout by done. apply Hout'. by rewrite Hperm.
Qed.

Lemma C4_witness :
  (∃ edh S g1 S',
    energy_diff_h example_h_float (keys example_h_float)
      {[0 := -1; 1 := 1; 2 := 1]} ∅ = Ok edh ∧
    color_loop example_J_float ∅ example_adj 1%float edh []
      {[0 := -1; 1 := 1; 2 := 1]} (Tape [] [(-1)%float; (-30)%float])
      = Ok (S, g1) ∧
    update_class example_J_float ∅ example_adj 1%float edh [0; 2] S g1
      = Ok (S', rng_after ∅ [0; 2] g1) ∧
    sequential_updates example_h_float example_J_float ∅
      example_adj 1%float (draw_of ∅ [0; 2] g1) [2; 0] S
      = Ok S') ∧
  sweep example_h_float example_J_float ∅ example_adj [[0; 2]] 1%float
    {[0 := -1; 1 := 1; 2 := 1]} (Tape [] [(-1)%float; (-30)%float])
  = Ok ({[0 := 1; 1 := 1; 2 := -1]}, Tape [] []).
Proof.
  split; [|vm_compute; reflexivity].
  apply (C4_batched_class_equals_sequential example_h_float example_J_float
           ∅ example_adj 1%float [] [0; 2] [[1]]).
  - exact example_build_adj_float.
  - vm_compute. reflexivity.
  - exact example_classes_within.
  - compute_done.
  - intros c v Hc. by apply elem_of_nil in Hc.
  - exact example_independent.
  - apply Permutation_swap.
Defined.

(** C5. Two runs of the sampler on the same [h], [J], clamped
    map and schedule, fed by random sources that produce identical sequences
    of draws, end alike: both raise or both return the same spin
    assignment. *)
Theorem C5_same_draws_same_assignment
    {num : Type} `{NA : Num num} {rng1 rng2 : Type}
    `{RS1 : RandomSource num rng1} `{RS2 : RandomSource num rng2}
    (R : rng1 → rng2 → Prop)
    (greedy_coloring : gmap node (gset node) → list (list node))
    (h : biases num) (J : couplings num) (clamped : gmap node Z)
    (schedule : list num) (g1 : rng1) (g2 : rng2) :
  same_draws R → R g1 g2 →
  same_outcome R (Sample greedy_coloring h J clamped schedule g1)
                 (Sample greedy_coloring h J clamped schedule g2).
Proof.
  intros HR Hg. unfold Sample.
  destruct (build_adj h J) as [adj|]; simpl; [|done].
  destruct (init_spins_rel R HR clamped (keys h) ∅ g1 g2 Hg) as [Hs Hg'].
  destruct (init_spins clamped (keys h) ∅ g1) as [s1 g1'],
           (init_spins clamped (keys h) ∅ g2) as [s2 g2'].
  simpl in *. subst s2. by apply sweeps_rel.
Qed.

Lemma C5_witness :
  same_outcome (fun (t : tape float) (c : counted float) => script c = t)
    (Sample example_coloring example_h_float example_J_float example_clamped
       [1%float; 0.5%float] example_tape_float)
    (Sample example_coloring example_h_float example_J_float example_clamped
       [1%float; 0.5%float] (Counted 0 example_tape_float)).
Proof.
  apply C5_same_draws_same_assignment.
  - exact (counted_same_draws (num := float)).
  - reflexivity.
Defined.

(** C6. The run over a schedule extended by one entry is the run
    over the schedule followed by one sweep with that entry, and the run
    over the empty schedule is the initialisation: each entry is used for
    exactly one sweep, in order, and the result is the assignment left by
    the sweep of the last entry. *)
Theorem C6_one_sweep_per_schedule_entry
    {num : Type} `{NA : Num num} {rng : Type} `{RS : RandomSource num rng}
    (greedy_coloring : gmap node (gset node) → list (list node))
    (h : biases num) (J : couplings num) (clamped : gmap node Z)
    (schedule : list num) (β : num) (g : rng) :
  Sample greedy_coloring h J clamped [] g
  = (let! adj := build_adj h J in Ok (init_spins clamped (keys h) ∅ g)) ∧
  Sample greedy_coloring h J clamped (schedule ++ [β]) g
  = (let! (spins, g') := Sample greedy_coloring h J clamped schedule g in
     let! adj := build_adj h J in
     sweep h J clamped adj (greedy_coloring adj) β spins g').
Proof.
  unfold Sample. destruct (build_adj h J) as [adj|] eqn:Hadj; simpl; [|done].
  destruct (init_spins clamped (keys h) ∅ g) as [spins0 g0]. split; [done|].
  rewrite sweeps_app.
  destruct (sweeps h J clamped adj (greedy_coloring adj) schedule spins0 g0)
    as [[s1 g1]|]; simpl; [|done].
  by destruct (sweep h J clamped adj (greedy_coloring adj) β s1 g1) as [[s2 g2]|].
Qed.

(** C7, as the specification states it, does not hold in the arithmetic of
    the cell. One node with bias [2^1023] and spin [+1], no coupling, and
    [β = 0.0]: [energy_diff_h] overflows to [-inf], so the energy difference
    is [≤ 0], but [-1. * 0.0 * -inf] is [NaN], the test fails for the draw
    with logarithm [-1], and the sweep keeps the spin. In exact arithmetic
    the same sweep flips it. *)
Lemma C7_counterexample :
  (0 <=? 0)%float = true ∧
  (float_of_Z (-2 * 1) * 0x1p+1023 + float_of_Z (-2) * float_of_Z 0 <=? 0)%float
    = true ∧
  (-1 <? 0)%float = true ∧
  accept 0%float (float_of_Z (-2 * 1) * 0x1p+1023)%float
    (float_of_Z (-2) * float_of_Z 0)%float (-1)%float = false ∧
  sweep [(0, 0x1p+1023%float)] [] ∅ {[0 := ∅]} [[0]] 0%float {[0 := 1]}
    (Tape [] [(-1)%float])
    = Ok ({[0 := 1]}, Tape [] []) ∧
  sweep [(0, inject_Z (2 ^ 1023))] [] ∅ {[0 := ∅]} [[0]] 0%Q {[0 := 1]}
    (Tape [] [(-1)%Q])
    = Ok ({[0 := -1]}, Tape [] []).
Proof. repeat split; vm_compute; reflexivity. Qed.

(** C7, as the cell implements it. [ΔE] is the quantity that the cell
    tests, [energy_diff_h[v] + energy_diff_J[v]]. With [β ≥ 0], [ΔE ≤ 0] and
    the logarithm of a draw from (0,1), which is negative, the test
    [logp < -1. * β * ΔE] holds and the loop flips the spin of the node:
    always in exact arithmetic, and in binary64 whenever the product
    [-1. * β * ΔE] is not [NaN]. *)
Theorem C7_downhill_flip_is_certain :
  (∀ (rng : Type) (RS : RandomSource Q rng)
     (clamped : gmap node Z) (β dh dJ : Q) (edh edJ : gmap node Q)
     (v : node) (s : Z) (spins : gmap node Z) (g : rng),
     (0 <= β)%Q → (dh + dJ <= 0)%Q → ((rand_log_uniform g).1 < 0)%Q →
     clamped !! v = None → edh !! v = Some dh → edJ !! v = Some dJ →
     spins !! v = Some s →
     accept β dh dJ (rand_log_uniform g).1 = true ∧
     flip_loop clamped β edh edJ [v] spins g
     = Ok (<[v := s * -1]> spins, (rand_log_uniform g).2)) ∧
  (∀ (rng : Type) (RS : RandomSource float rng)
     (clamped : gmap node Z) (β dh dJ : float) (edh edJ : gmap node float)
     (v : node) (s : Z) (spins : gmap node Z) (g : rng),
     (0 <=? β)%float = true → (dh + dJ <=? 0)%float = true →
     ((rand_log_uniform g).1 <? 0)%float = true →
     (-1 * β * (dh + dJ) =? -1 * β * (dh + dJ))%float = true →
     clamped !! v = None → edh !! v = Some dh → edJ !! v = Some dJ →
     spins !! v = Some s →
     accept β dh dJ (rand_log_uniform g).1 = true ∧
     flip_loop clamped β edh edJ [v] spins g
     = Ok (<[v := s * -1]> spins, (rand_log_uniform g).2)).
Proof.
  split.
  - intros rng RS clamped β dh dJ edh edJ v s spins g Hβ HΔ Hlog Hc Hh HJ Hs.
    assert (Hacc : accept β dh dJ (rand_log_uniform g).1 = true).
    { unfold accept. cbn [nltb nmul nadd of_int Q_num]. apply Qltb_lt.
      change (inject_Z (-1)) with (-1)%Q.
      assert (0 <= β * - (dh + dJ))%Q by (apply Qmult_le_0_compat; lra).
      lra. }
    split; [done|]. by apply flip_loop_single_accept with dh dJ.
  - intros rng RS clamped β dh dJ edh edJ v s spins g Hβ HΔ Hlog Hnan
      Hc Hh HJ Hs.
    assert (Hacc : accept β dh dJ (rand_log_uniform g).1 = true)
      by (by apply accept_downhill_binary64).
    split; [done|]. by apply flip_loop_single_accept with dh dJ.
Qed.

Lemma C7_witness :
  (accept 1%Q 0%Q (-10)%Q (rand_log_uniform (Tape [] [(-1)%Q])).1 = true ∧
   flip_loop ∅ 1%Q {[2 := 0%Q]} {[2 := (-10)%Q]} [2] {[2 := 1]}
     (Tape [] [(-1)%Q])
   = Ok (<[2 := 1 * -1]> {[2 := 1]}, (rand_log_uniform (Tape [] [(-1)%Q])).2)) ∧
  (accept 0.5%float 0%float (-10)%float
     (rand_log_uniform (Tape [] [(-1)%float])).1 = true ∧
   flip_loop ∅ 0.5%float {[2 := 0%float]} {[2 := (-10)%float]} [2] {[2 := 1]}
     (Tape [] [(-1)%float])
   = Ok (<[2 := 1 * -1]> {[2 := 1]},
         (rand_log_uniform (Tape [] [(-1)%float])).2)).
Proof.
  split.
  - apply (proj1 C7_downhill_flip_is_certain); try reflexivity.
    + vm_compute. discriminate.
    + vm_compute. discriminate.
  - apply (proj2 C7_downhill_flip_is_certain); reflexivity.
Defined.

(** C8, as the specification states it, does not hold. The last entry of
    [βs] is [0]: not every entry of the schedule is positive, neither in
    exact arithmetic nor in binary64. *)
Lemma C8_counterexample :
  ¬ Forall (fun β : Q => (0 < β)%Q) βs ∧
  ¬ Forall (fun β : float => PrimFloat.ltb 0 β = true) βs.
Proof.
  split; intros HF; rewrite Forall_lookup in HF.
  - assert (Hlast : (βs : list Q) !! 999%nat = Some (β_entry 999)).
    { apply βs_lookup. split; [lia|reflexivity]. }
    specialize (HF _ _ Hlast). vm_compute in HF. discriminate HF.
  - assert (Hlast : (βs : list float) !! 999%nat = Some (β_entry 999)).
    { apply βs_lookup. split; [lia|reflexivity]. }
    specialize (HF _ _ Hlast). vm_compute in HF. discriminate HF.
Qed.

(** C8, as the cell implements it. [βs] has 1000 entries, starts at [1],
    decreases strictly, and ends at [0]: every entry but the last is
    positive, and the last is [0]. *)
Theorem C8_schedule_decreases_from_one_to_zero :
  length (βs : list Q) = 1000%nat ∧
  (∃ q : Q, βs !! 0%nat = Some q ∧ (q == 1)%Q) ∧
  (∀ i j (x y : Q), (i < j)%nat → βs !! i = Some x → βs !! j = Some y →
                    (y < x)%Q) ∧
  (∀ i (x : Q), (i < 999)%nat → βs !! i = Some x → (0 < x)%Q) ∧
  (∃ q : Q, βs !! 999%nat = Some q ∧ (q == 0)%Q).
Proof.
  split; [|split; [|split; [|split]]].
  - unfold βs. by rewrite length_map, length_seq.
  - exists (β_entry 0). split; [|reflexivity].
    apply βs_lookup. split; [lia|reflexivity].
  - intros i j x y Hij [_ ->]%βs_lookup [_ ->]%βs_lookup.
    apply β_entry_lt. lia.
  - intros i x Hi [_ ->]%βs_lookup. apply β_entry_pos. lia.
  - exists (β_entry 999). split; [|reflexivity].
    apply βs_lookup. split; [lia|reflexivity].
Qed.

Lemma C8_witness :
  (β_entry (num := Q) 999 < β_entry (num := Q) 0)%Q ∧
  (0 < β_entry (num := Q) 998)%Q.
Proof.
  destruct C8_schedule_decreases_from_one_to_zero as (_ & _ & Hdec & Hpos & _).
  split.
  - apply (Hdec 0%nat 999%nat); [lia| |]; vm_compute; reflexivity.
  - apply (Hpos 998%nat); [lia|]. vm_compute. reflexivity.
Defined.

(** C9. When every clamped value is [-1] or [+1], every spin is
    [-1] or [+1] after initialisation, the update of a colour class keeps
    that property, and so it holds of the returned assignment, which exists
    whenever the couplings name nodes of [h]. *)
Theorem C9_spins_are_plus_or_minus_one
    {num : Type} `{NA : Num num} {rng : Type} `{RS : RandomSource num rng}
    (greedy_coloring : gmap node (gset node) → list (list node))
    (h : biases num) (J : couplings num) (clamped : gmap node Z)
    (schedule : list num) (g : rng) :
  (∀ v c, clamped !! v = Some c → c = 1 ∨ c = -1) →
  spins_pm1 (init_spins clamped (keys h) ∅ g).1 ∧
  (∀ adj β edh nodes spins g1 spins' g2,
     spins_pm1 spins →
     update_class J clamped adj β edh nodes spins g1 = Ok (spins', g2) →
     spins_pm1 spins') ∧
  (∀ spins g',
     Sample greedy_coloring h J clamped schedule g = Ok (spins, g') →
     spins_pm1 spins) ∧
  (couplings_within (list_to_set (keys h)) J →
   (∀ adj, build_adj h J = Ok adj → classes_within adj (greedy_coloring adj)) →
   ∃ spins g',
     Sample greedy_coloring h J clamped schedule g = Ok (spins, g') ∧
     spins_pm1 spins).
Proof.
  intros Hcl.
  assert (Hinit : spins_pm1 (init_spins clamped (keys h) ∅ g).1).
  { apply init_spins_pm1; [done|]. intros v s. by rewrite lookup_empty. }
  assert (Hfinal : ∀ spins g',
     Sample greedy_coloring h J clamped schedule g = Ok (spins, g') →
     spins_pm1 spins).
  { intros spins g' HS%Sample_evolves. by eapply evolves_pm1. }
  split; [done|]. split; [|split; [done|]].
  - intros adj β edh nodes spins g1 spins' g2 Hpm Hup%update_class_evolves.
    by eapply evolves_pm1.
  - intros HJ Hcol.
    destruct (Sample_Ok h J clamped greedy_coloring schedule g HJ Hcol)
      as (adj & spins & g' & _ & HS & _).
    exists spins, g'. split; [done|]. by eapply Hfinal.
Qed.

Lemma C9_witness :
  spins_pm1
    (init_spins example_clamped (keys example_h_float) ∅ example_tape_float).1 ∧
  (∀ adj β edh nodes spins (g1 : tape float) spins' g2,
     spins_pm1 spins →
     update_class example_J_float example_clamped adj β edh nodes spins g1
       = Ok (spins', g2) →
     spins_pm1 spins') ∧
  (∀ spins g',
     Sample example_coloring example_h_float example_J_float example_clamped
       [1%float; 0.5%float] example_tape_float = Ok (spins, g') →
     spins_pm1 spins) ∧
  (couplings_within (list_to_set (keys example_h_float)) example_J_float →
   (∀ adj, build_adj example_h_float example_J_float = Ok adj →
           classes_within adj (example_coloring adj)) →
   ∃ spins g',
     Sample example_coloring example_h_float example_J_float example_clamped
       [1%float; 0.5%float] example_tape_float = Ok (spins, g') ∧
     spins_pm1 spins).
Proof.
  apply C9_spins_are_plus_or_minus_one.
  intros v c Hc. unfold example_clamped in Hc.
  apply lookup_singleton_Some in Hc as [_ <-]. by right.
Defined.



(** * Further properties *)

(** ** The adjacency map *)

Lemma adj_add_lookup_inv adj n0 n1 adj' v nb' u :
  adj_add adj n0 n1 = Ok adj' → adj' !! v = Some nb' → u ∈ nb' →
  (∃ nb, adj !! v = Some nb ∧ u ∈ nb) ∨ (v = n0 ∧ u = n1).
Proof.
  unfold adj_add. destruct (get adj n0) as [s|] eqn:Hs; simpl; [|done].
  apply get_Ok in Hs. intros [= <-].
  destruct (decide (n0 = v)) as [->|Hne].
  - rewrite lookup_insert_eq. intros [= <-] [Hu|Hu]%elem_of_union.
    + right. split; [done|]. by apply elem_of_singleton in Hu.
    + left. by exists s.
  - rewrite lookup_insert_ne by done. intros Hv Hu. left. by exists nb'.
Qed.

Lemma adj_edges_sound {num} (J : couplings num) adj adj' v nb' u :
  adj_edges J adj = Ok adj' → adj' !! v = Some nb' → u ∈ nb' →
  (∃ nb, adj !! v = Some nb ∧ u ∈ nb) ∨ (v, u) ∈ J.*1 ∨ (u, v) ∈ J.*1.
Proof.
  revert adj. induction J as [|[[a b] w] J IH]; intros adj; simpl.
  - intros [= <-] Hv Hu. left. by exists nb'.
  - destruct (adj_add adj a b) as [adj1|] eqn:H1; simpl; [|done].
    destruct (adj_add adj1 b a) as [adj2|] eqn:H2; simpl; [|done].
    intros Hrest Hv Hu.
    destruct (IH adj2 Hrest Hv Hu) as [(nb2 & Hv2 & Hu2)|[HJ|HJ]].
    + destruct (adj_add_lookup_inv _ _ _ _ _ _ _ H2 Hv2 Hu2)
        as [(nb1 & Hv1 & Hu1)|[-> ->]].
      * destruct (adj_add_lookup_inv _ _ _ _ _ _ _ H1 Hv1 Hu1)
          as [(nb & Hv0 & Hu0)|[-> ->]].
        -- left. by exists nb.
        -- right. left. by left.
      * right. right. by left.
    + right. left. by right.
    + right. right. by right.
Qed.

Lemma neighbors_lookup adj v u :
  u ∈ neighbors adj v ↔ ∃ nb, adj !! v = Some nb ∧ u ∈ nb.
Proof.
  unfold neighbors. destruct (adj !! v) as [nb|]; simpl.
  - rewrite elem_of_elements. split; [by exists nb|by intros (? & [= <-] & ?)].
  - rewrite elements_empty. split; [by intros ?%elem_of_nil|by intros (? & ? & ?)].
Qed.

Lemma build_adj_neighbors {num} (h : biases num) (J : couplings num) adj u v :
  build_adj h J = Ok adj →
  u ∈ neighbors adj v ↔ (v, u) ∈ J.*1 ∨ (u, v) ∈ J.*1.
Proof.
  intros Hadj. rewrite neighbors_lookup. split.
  - intros (nb & Hv & Hu).
    destruct (adj_edges_sound J (adj_init h) adj v nb u Hadj Hv Hu)
      as [(nb0 & Hv0 & Hu0)|H]; [|done].
    apply adj_init_lookup_acc in Hv0 as [->|Hv0]; [set_solver|].
    by rewrite lookup_empty in Hv0.
  - intros [H|H]; apply list_elem_of_fmap in H as ([e w] & He & Hin);
      simpl in He; subst e.
    + by destruct (adj_edges_contains J (adj_init h) adj v u w Hadj Hin).
    + by destruct (adj_edges_contains J (adj_init h) adj u v w Hadj Hin).
Qed.

(** X1. The adjacency map that the cell builds has the nodes of [h] as its
    keys, and [u] is a neighbour of [v] exactly when [J] has the key [(v,u)]
    or the key [(u,v)]; so the neighbour relation is symmetric. *)
Theorem X1_adjacency_is_the_coupling_graph {num : Type}
    (h : biases num) (J : couplings num) (adj : gmap node (gset node)) :
  build_adj h J = Ok adj →
  (∀ v, v ∈ dom adj ↔ v ∈ keys h) ∧
  (∀ u v, u ∈ neighbors adj v ↔ (v, u) ∈ J.*1 ∨ (u, v) ∈ J.*1) ∧
  (∀ u v, u ∈ neighbors adj v ↔ v ∈ neighbors adj u).
Proof.
  intros Hadj. split; [|split].
  - intros v.
    destruct (decide (couplings_within (list_to_set (keys h)) J)) as [HJ|HJ].
    + destruct (build_adj_Ok h J HJ) as (adj' & Hadj' & Hd & _).
      assert (adj' = adj) as -> by congruence. rewrite Hd. set_solver.
    + rewrite (build_adj_KeyError h J HJ) in Hadj. discriminate.
  - intros u v. by apply (build_adj_neighbors h J).
  - intros u v. rewrite !(build_adj_neighbors h J adj) by done. tauto.
Qed.

Lemma X1_witness :
  (∀ v, v ∈ dom example_adj ↔ v ∈ keys example_h_float) ∧
  (∀ u v, u ∈ neighbors example_adj v
          ↔ (v, u) ∈ example_J_float.*1 ∨ (u, v) ∈ example_J_float.*1) ∧
  (∀ u v, u ∈ neighbors example_adj v ↔ v ∈ neighbors example_adj u).
Proof.
  apply X1_adjacency_is_the_coupling_graph. exact example_build_adj_float.
Defined.

(** ** When the sampler returns, and what it returns *)

Section Returns.
Context {num : Type} `{NA : Num num} {rng : Type} `{RS : RandomSource num rng}.
Variable h : biases num.
Variable J : couplings num.
Variable clamped : gmap node Z.

Lemma energy_diff_J_Ok_inv adj spins nodes acc edJ :
  energy_diff_J J adj spins nodes acc = Ok edJ →
  ∀ v, v ∈ nodes → v ∈ dom adj.
Proof.
  revert acc. induction nodes as [|v0 nodes IH]; intros acc; simpl.
  - intros _ v Hv. by apply elem_of_nil in Hv.
  - destruct (get adj v0) as [nb|] eqn:Hnb; simpl; [|done].
    apply get_Ok in Hnb.
    destruct (ediff_loop J spins v0 (elements nb) (of_int 0)) as [e|];
      simpl; [|done].
    intros Hrest v [->|Hv]%elem_of_cons.
    + by apply elem_of_dom_2 in Hnb.
    + by eapply IH.
Qed.

Lemma color_loop_Ok_inv adj β edh colors spins g spins' g' :
  color_loop J clamped adj β edh colors spins g = Ok (spins', g') →
  classes_within adj colors.
Proof.
  revert spins g. induction colors as [|c colors IH]; intros spins g; simpl.
  - intros _ nodes v Hn. by apply elem_of_nil in Hn.
  - unfold update_class at 1.
    destruct (energy_diff_J J adj spins c ∅) as [edJ|] eqn:HeJ; simpl; [|done].
    destruct (flip_loop clamped β edh edJ c spins g) as [[s1 g1]|];
      simpl; [|done].
    intros Hrest nodes v [->|Hn]%elem_of_cons Hv.
    + by eapply energy_diff_J_Ok_inv.
    + by eapply IH.
Qed.

Lemma sweep_Ok_inv adj colors β spins g spins' g' :
  sweep h J clamped adj colors β spins g = Ok (spins', g') →
  classes_within adj colors.
Proof.
  unfold sweep.
  destruct (energy_diff_h h (keys h) spins ∅) as [edh|]; simpl; [|done].
  apply color_loop_Ok_inv.
Qed.



Lemma energy_diff_h_dom vs spins acc edh :
  energy_diff_h h vs spins acc = Ok edh →
  dom edh = dom acc ∪ list_to_set vs.
Proof.
  revert acc. induction vs as [|v vs IH]; intros acc; simpl.
  - intros [= <-]. set_solver.
  - destruct (get spins v) as [s|]; simpl; [|done].
    destruct (h_lookup h v) as [hv|]; [|done].
    intros Hrest%IH. rewrite Hrest, dom_insert_L. set_solver.
Qed.

(** *** Runs in which every node of [h] is clamped *)

Lemma init_spins_all_clamped vs spins g :
  (∀ v, v ∈ vs → is_Some (clamped !! v)) →
  (init_spins clamped vs spins g).2 = g.
Proof.
  revert spins. induction vs as [|v vs IH]; intros spins Hcl; simpl; [done|].
  destruct (Hcl v) as [c Hc]; [by left|]. rewrite Hc.
  apply IH. intros u Hu. apply Hcl. by right.
Qed.

Lemma flip_loop_all_clamped β edh edJ nodes spins g spins' g' :
  (∀ v, v ∈ nodes → v ∈ dom edh → is_Some (clamped !! v)) →
  flip_loop clamped β edh edJ nodes spins g = Ok (spins', g') →
  spins' = spins ∧ g' = g.
Proof.
  revert spins g. induction nodes as [|v nodes IH]; intros spins g Hcl; simpl.
  - by intros [= <- <-].
  - destruct (clamped !! v) as [c|] eqn:Hc.
    + apply IH. intros u Hu. apply Hcl. by right.
    + destruct (rand_log_uniform g) as [logp g1].
      destruct (get edh v) as [dh|] eqn:Hdh; simpl; [|done].
      apply get_Ok in Hdh. apply elem_of_dom_2 in Hdh.
      destruct (Hcl v) as [c Hc']; [by left|done|congruence].
Qed.

Lemma sweeps_all_clamped adj colors schedule spins g spins' g' :
  (∀ v, v ∈ keys h → is_Some (clamped !! v)) →
  sweeps h J clamped adj colors schedule spins g = Ok (spins', g') →
  spins' = spins ∧ g' = g.
Proof.
  intros Hcl. revert spins g.
  induction schedule as [|β schedule IH]; intros spins g; simpl.
  - by intros [= <- <-].
  - destruct (sweep h J clamped adj colors β spins g) as [[s1 g1]|] eqn:Hs;
      simpl; [|done].
    assert (s1 = spins ∧ g1 = g) as [-> ->]; [|apply IH].
    unfold sweep in Hs.
    destruct (energy_diff_h h (keys h) spins ∅) as [edh|] eqn:Hedh;
      simpl in Hs; [|done].
    apply energy_diff_h_dom in Hedh.
    clear IH. revert spins g Hs Hedh.
    induction colors as [|c colors IHc]; intros spins g; simpl.
    + by intros [= <- <-].
    + unfold update_class at 1.
      destruct (energy_diff_J J adj spins c ∅) as [edJ|]; simpl; [|done].
      destruct (flip_loop clamped β edh edJ c spins g) as [[s2 g2]|] eqn:Hfl;
        simpl; [|done].
      intros Hrest Hedh.
      apply flip_loop_all_clamped in Hfl as [-> ->]; [by apply IHc|].
      intros v _ Hv. apply Hcl. rewrite Hedh in Hv. set_solver.
Qed.

End Returns.

(** X2. With a schedule that is not empty and clamped values up to [2^31]
    in magnitude, the sampler returns an assignment exactly when the cell
    can build the adjacency map and every node of every colour class is a
    key of that map; in every other case it raises [KeyError]. *)
Theorem X2_returns_iff_model_and_classes_are_known
    {num : Type} `{NA : Num num} {rng : Type} `{RS : RandomSource num rng}
    (greedy_coloring : gmap node (gset node) → list (list node))
    (h : biases num) (J : couplings num) (clamped : gmap node Z)
    (schedule : list num) (g : rng) :
  (∀ v c, clamped !! v = Some c → - 2 ^ 31 ≤ c ≤ 2 ^ 31) →
  schedule ≠ [] →
  ((∃ spins g', Sample greedy_coloring h J clamped schedule g = Ok (spins, g'))
   ↔ (∃ adj, build_adj h J = Ok adj ∧
             classes_within adj (greedy_coloring adj))) ∧
  ((¬ ∃ spins g',
        Sample greedy_coloring h J clamped schedule g = Ok (spins, g'))
   → Sample greedy_coloring h J clamped schedule g = KeyError).
Proof.
  intros _ Hne. split; [split|].
  - intros (spins & g' & HS). unfold Sample in HS.
    destruct (build_adj h J) as [adj|] eqn:Hadj; simpl in HS; [|done].
    exists adj. split; [done|].
    destruct (init_spins clamped (keys h) ∅ g) as [spins0 g0].
    destruct schedule as [|β schedule]; [done|]. simpl in HS.
    destruct (sweep h J clamped adj (greedy_coloring adj) β spins0 g0)
      as [[s1 g1]|] eqn:Hsw; simpl in HS; [|done].
    by eapply sweep_Ok_inv.
  - intros (adj & Hadj & Hcol).
    assert (HJ : couplings_within (list_to_set (keys h)) J).
    { destruct (decide (couplings_within (list_to_set (keys h)) J)); [done|].
      rewrite build_adj_KeyError in Hadj by done. discriminate. }
    destruct (Sample_Ok h J clamped greedy_coloring schedule g HJ)
      as (_ & spins & g' & _ & HS & _).
    { intros adj' Hadj'. assert (adj' = adj) as -> by congruence. done. }
    by exists spins, g'.
  - intros Hno.
    destruct (Sample greedy_coloring h J clamped schedule g)
      as [[spins g']|]; [|done].
    destruct Hno. by exists spins, g'.
Qed.

Lemma X2_witness :
  ((∃ spins g',
      Sample example_coloring example_h_float example_J_float example_clamped
        [1%float] example_tape_float = Ok (spins, g'))
   ↔ (∃ adj, build_adj example_h_float example_J_float = Ok adj ∧
             classes_within adj (example_coloring adj))) ∧
  ((¬ ∃ spins g',
        Sample example_coloring example_h_float example_J_float
          example_clamped [1%float] example_tape_float = Ok (spins, g'))
   → Sample example_coloring example_h_float example_J_float example_clamped
       [1%float] example_tape_float = KeyError).
Proof.
  apply X2_returns_iff_model_and_classes_are_known; [|discriminate].
  intros v c Hc. unfold example_clamped in Hc.
  apply lookup_singleton_Some in Hc as [_ <-]. lia.
Defined.

(** X3. The assignment that the sampler returns has exactly the nodes of [h]
    as its keys (a clamped node that is not in [h] is not in it), and the
    spin of each of them is its initial spin or, for a node that is not
    clamped, its initial spin times [-1]. *)
Theorem X3_result_has_the_nodes_of_h
    {num : Type} `{NA : Num num} {rng : Type} `{RS : RandomSource num rng}
    (greedy_coloring : gmap node (gset node) → list (list node))
    (h : biases num) (J : couplings num) (clamped : gmap node Z)
    (schedule : list num) (g : rng) (spins : gmap node Z) (g' : rng) :
  Sample greedy_coloring h J clamped schedule g = Ok (spins, g') →
  (∀ v, is_Some (spins !! v) ↔ v ∈ keys h) ∧
  (∀ v, v ∈ keys h →
     ∃ s0, (init_spins clamped (keys h) ∅ g).1 !! v = Some s0 ∧
           (spins !! v = Some s0 ∨
            (clamped !! v = None ∧ spins !! v = Some (s0 * -1)))).
Proof.
  intros [Hdom Hev]%Sample_evolves.
  pose proof (init_spins_dom clamped (keys h) ∅ g) as Hd0.
  assert (Hd : dom spins = list_to_set (keys h)).
  { rewrite Hdom, Hd0. set_solver. }
  split.
  - intros v. rewrite <- elem_of_dom, Hd. set_solver.
  - intros v Hv.
    assert (Hin : v ∈ dom (init_spins clamped (keys h) ∅ g).1).
    { rewrite Hd0. set_solver. }
    apply elem_of_dom in Hin as [s0 Hs0]. exists s0. split; [done|].
    destruct (Hev v) as [E|(Hc & s & Hs & Hs')].
    + left. congruence.
    + right. split; [done|]. congruence.
Qed.

Lemma X3_witness :
  (∀ v, is_Some (({[0 := 1]} : gmap node Z) !! v) ↔ v ∈ keys [(0, 0%float)]) ∧
  (∀ v, v ∈ keys [(0, 0%float)] →
     ∃ s0, (init_spins {[7 := 1]} (keys [(0, 0%float)]) ∅
              (Tape [false] [(-1)%float])).1 !! v = Some s0 ∧
           (({[0 := 1]} : gmap node Z) !! v = Some s0 ∨
            (({[7 := 1]} : gmap node Z) !! v = None ∧
             ({[0 := 1]} : gmap node Z) !! v = Some (s0 * -1)))).
Proof.
  apply (X3_result_has_the_nodes_of_h singleton_coloring [(0, 0%float)] []
           {[7 := 1]} [1%float] (Tape [false] [(-1)%float]) _ (Tape [] [])).
  vm_compute. reflexivity.
Defined.



(** X5. When every node of [h] is clamped, the sampler makes no random draw
    and returns, for every schedule, the clamped values of the nodes of
    [h]. *)
Theorem X5_fully_clamped_run_draws_nothing
    {num : Type} `{NA : Num num} {rng : Type} `{RS : RandomSource num rng}
    (greedy_coloring : gmap node (gset node) → list (list node))
    (h : biases num) (J : couplings num) (clamped : gmap node Z)
    (schedule : list num) (g : rng) (spins : gmap node Z) (g' : rng) :
  (∀ v, v ∈ keys h → is_Some (clamped !! v)) →
  Sample greedy_coloring h J clamped schedule g = Ok (spins, g') →
  g' = g ∧ ∀ v, v ∈ keys h → spins !! v = clamped !! v.
Proof.
  intros Hcl HS. unfold Sample in HS.
  destruct (build_adj h J) as [adj|]; simpl in HS; [|done].
  pose proof (init_spins_all_clamped clamped (keys h) ∅ g Hcl) as Hg0.
  assert (Hinit : ∀ v, v ∈ keys h →
            (init_spins clamped (keys h) ∅ g).1 !! v = clamped !! v).
  { intros v Hv. destruct (Hcl v Hv) as [c Hc]. rewrite Hc.
    apply init_spins_clamped; [done|by left]. }
  destruct (init_spins clamped (keys h) ∅ g) as [spins0 g0]. simpl in *.
  apply sweeps_all_clamped in HS as [-> ->]; [|done].
  by subst g0.
Qed.

Lemma X5_witness :
  Tape [true] [(-1)%float] = Tape [true] [(-1)%float] ∧
  ∀ v, v ∈ keys [(0, 2%float); (1, 3%float)] →
       ({[0 := 1; 1 := -1]} : gmap node Z) !! v
       = ({[0 := 1; 1 := -1]} : gmap node Z) !! v.
Proof.
  apply (X5_fully_clamped_run_draws_nothing singleton_coloring
           [(0, 2%float); (1, 3%float)] [((0, 1), 1%float)]
           {[0 := 1; 1 := -1]} [1%float; 0.5%float]).
  - intros v Hv. apply elem_of_cons in Hv as [->|Hv]; [by eexists|].
    apply list_elem_of_singleton in Hv as ->. by eexists.
  - vm_compute. reflexivity.
Defined.

(** ** How many draws a run makes *)

Section Metering.
Context {num : Type} `{NA : Num num} {rng : Type} `{RS : RandomSource num rng}.
Variable h : biases num.
Variable J : couplings num.
Variable clamped : gmap node Z.

Lemma free_nodes_cons_free v l :
  clamped !! v = None → free_nodes clamped (v :: l) = v :: free_nodes clamped l.
Proof. intros Hc. unfold free_nodes. by rewrite filter_cons_True. Qed.

Lemma free_nodes_cons_clamped v c l :
  clamped !! v = Some c → free_nodes clamped (v :: l) = free_nodes clamped l.
Proof.
  intros Hc. unfold free_nodes. rewrite filter_cons_False; [done|].
  by rewrite Hc.
Qed.

Lemma init_spins_draws vs spins (m : metered rng) :
  draws (init_spins clamped vs spins m).2
  = (draws m + length (free_nodes clamped vs))%nat.
Proof.
  revert spins m. induction vs as [|v vs IH]; intros spins m; simpl.
  - unfold free_nodes. simpl. lia.
  - destruct (clamped !! v) as [c|] eqn:Hc.
    + rewrite (free_nodes_cons_clamped v c) by done. apply IH.
    + rewrite free_nodes_cons_free by done. unfold choice. simpl.
      destruct (rand_pick (inner m)) as [b g1]. rewrite IH. simpl. lia.
Qed.

Lemma flip_loop_draws β edh edJ nodes spins (m : metered rng) spins' m' :
  flip_loop clamped β edh edJ nodes spins m = Ok (spins', m') →
  draws m' = (draws m + length (free_nodes clamped nodes))%nat.
Proof.
  revert spins m. induction nodes as [|v nodes IH]; intros spins m; simpl.
  - intros [= <- <-]. unfold free_nodes. simpl. lia.
  - destruct (clamped !! v) as [c|] eqn:Hc.
    + rewrite (free_nodes_cons_clamped v c) by done. apply IH.
    + rewrite free_nodes_cons_free by done.
      destruct (rand_log_uniform (inner m)) as [logp g1].
      destruct (get edh v) as [dh|]; simpl; [|done].
      destruct (get edJ v) as [dJ|]; simpl; [|done].
      destruct (accept β dh dJ logp).
      * destruct (get spins v) as [s|]; simpl; [|done].
        intros Hrest%IH. rewrite Hrest. simpl. lia.
      * intros Hrest%IH. rewrite Hrest. simpl. lia.
Qed.

Lemma color_loop_draws adj β edh colors spins (m : metered rng) spins' m' :
  color_loop J clamped adj β edh colors spins m = Ok (spins', m') →
  draws m' = (draws m + length (free_nodes clamped (concat colors)))%nat.
Proof.
  revert spins m. induction colors as [|c colors IH]; intros spins m; simpl.
  - intros [= <- <-]. unfold free_nodes. simpl. lia.
  - unfold update_class at 1.
    destruct (energy_diff_J J adj spins c ∅) as [edJ|]; simpl; [|done].
    destruct (flip_loop clamped β edh edJ c spins m) as [[s1 m1]|] eqn:Hfl;
      simpl; [|done].
    intros Hrest%IH. apply flip_loop_draws in Hfl.
    unfold free_nodes in *. rewrite filter_app, length_app. lia.
Qed.

Lemma sweeps_draws adj colors schedule spins (m : metered rng) spins' m' :
  sweeps h J clamped adj colors schedule spins m = Ok (spins', m') →
  draws m' = (draws m + length schedule
                        * length (free_nodes clamped (concat colors)))%nat.
Proof.
  revert spins m. induction schedule as [|β schedule IH]; intros spins m; simpl.
  - intros [= <- <-]. lia.
  - destruct (sweep h J clamped adj colors β spins m) as [[s1 m1]|] eqn:Hs;
      simpl; [|done].
    intros Hrest%IH. unfold sweep in Hs.
    destruct (energy_diff_h h (keys h) spins ∅) as [edh|]; simpl in Hs; [|done].
    apply color_loop_draws in Hs. lia.
Qed.

End Metering.

(** X6. A run that returns has made one draw for every node of [h] that is
    not clamped (its initial spin) and, in each sweep, one draw for every
    member of a colour class that is not clamped; clamped nodes cost no
    draw. *)
Theorem X6_number_of_draws
    {num : Type} `{NA : Num num} {rng : Type} `{RS : RandomSource num rng}
    (greedy_coloring : gmap node (gset node) → list (list node))
    (h : biases num) (J : couplings num) (clamped : gmap node Z)
    (schedule : list num) (m : metered rng) (adj : gmap node (gset node))
    (spins : gmap node Z) (m' : metered rng) :
  build_adj h J = Ok adj →
  Sample greedy_coloring h J clamped schedule m = Ok (spins, m') →
  draws m'
  = (draws m + length (free_nodes clamped (keys h))
     + length schedule
       * length (free_nodes clamped (concat (greedy_coloring adj))))%nat.
Proof.
  intros Hadj HS. unfold Sample in HS. rewrite Hadj in HS. simpl in HS.
  pose proof (init_spins_draws clamped (keys h) ∅ m) as Hinit.
  destruct (init_spins clamped (keys h) ∅ m) as [spins0 m0]. simpl in *.
  apply sweeps_draws in HS. lia.
Qed.

Lemma X6_witness :
  draws (Metered 6 (Tape [] [] : tape float))
  = (draws (Metered 0 example_tape_float)
     + length (free_nodes example_clamped (keys example_h_float))
     + length [1%float; 0.5%float]
       * length (free_nodes example_clamped
                   (concat (example_coloring example_adj))))%nat.
Proof.
  apply (X6_number_of_draws example_coloring example_h_float example_J_float
           example_clamped [1%float; 0.5%float] (Metered 0 example_tape_float)
           example_adj {[0 := -1; 1 := 1; 2 := -1]}).
  - exact example_build_adj_float.
  - vm_compute. reflexivity.
Defined.

(** ** The coupling term and the energy of the model *)

Lemma local_field_lsum J spins v l :
  local_field J spins v l
  = lsum (fun u => (coupling J v u * inject_Z (spin_of spins u))%Q) l.
Proof. induction l as [|u l IH]; simpl; [done|]. by rewrite IH. Qed.

Lemma lsum_ext (f g : node → Q) l :
  (∀ u, u ∈ l → (f u == g u)%Q) → (lsum f l == lsum g l)%Q.
Proof.
  induction l as [|u l IH]; intros Hfg; simpl; [reflexivity|].
  rewrite (Hfg u) by (by left). rewrite IH; [reflexivity|].
  intros u' Hu'. apply Hfg. by right.
Qed.

Lemma lsum_plus (f g : node → Q) l :
  (lsum (fun u => f u + g u) l == lsum f l + lsum g l)%Q.
Proof. induction l as [|u l IH]; simpl; [ring|]. rewrite IH. ring. Qed.

Lemma lsum_perm (f : node → Q) l1 l2 :
  l1 ≡ₚ l2 → (lsum f l1 == lsum f l2)%Q.
Proof.
  induction 1 as [|x l l' _ IH|x y l|l l' l'' _ IH1 _ IH2]; simpl.
  - reflexivity.
  - by rewrite IH.
  - ring.
  - by rewrite IH1.
Qed.

Lemma Jsum_ext (f g : node → node → Q → Q) (J : couplings Q) :
  (∀ a b w, ((a, b), w) ∈ J → (f a b w == g a b w)%Q) →
  (Jsum f J == Jsum g J)%Q.
Proof.
  induction J as [|[[a b] w] J IH]; intros Hfg; simpl; [reflexivity|].
  rewrite (Hfg a b w) by (by left). rewrite IH; [reflexivity|].
  intros a' b' w' Hin. apply Hfg. by right.
Qed.

Lemma Jsum_plus (f g : node → node → Q → Q) (J : couplings Q) :
  (Jsum (fun a b w => f a b w + g a b w) J == Jsum f J + Jsum g J)%Q.
Proof. induction J as [|[[a b] w] J IH]; simpl; [ring|]. rewrite IH. ring. Qed.

Lemma J_lookup_None {num} (J : couplings num) e :
  e ∉ J.*1 → J_lookup J e = None.
Proof.
  induction J as [|[k x] J IH]; simpl; [done|].
  intros [Hne Hin]%not_elem_of_cons.
  destruct (decide (k = e)); [congruence|]. by apply IH.
Qed.

(** X7. In exact arithmetic the coupling term of a node does not depend on
    the order in which the set [adj[v0]] is iterated. *)
Theorem X7_coupling_term_ignores_iteration_order (J : couplings Q)
    (spins : gmap node Z) (v0 : node) (l1 l2 : list node) (e0 : Q) :
  l1 ≡ₚ l2 → v0 ∈ dom spins → (∀ u, u ∈ l1 → u ∈ dom spins) →
  ∃ e1 e2, ediff_loop J spins v0 l1 e0 = Ok e1 ∧
           ediff_loop J spins v0 l2 e0 = Ok e2 ∧ (e1 == e2)%Q.
Proof.
  intros Hperm [s0 Hs0]%elem_of_dom Hl1.
  destruct (ediff_loop_closed J spins v0 s0 l1 e0 Hs0 Hl1) as (e1 & He1 & Hq1).
  destruct (ediff_loop_closed J spins v0 s0 l2 e0 Hs0) as (e2 & He2 & Hq2).
  { intros u Hu. apply Hl1. by rewrite Hperm. }
  exists e1, e2. split; [done|]. split; [done|].
  rewrite Hq1, Hq2, !local_field_lsum. by rewrite (lsum_perm _ l1 l2).
Qed.

Lemma X7_witness :
  ∃ e1 e2,
    ediff_loop example_J {[0 := -1; 1 := 1; 2 := 1]} 1 [0; 2] 0%Q = Ok e1 ∧
    ediff_loop example_J {[0 := -1; 1 := 1; 2 := 1]} 1 [2; 0] 0%Q = Ok e2 ∧
    (e1 == e2)%Q.
Proof.
  apply X7_coupling_term_ignores_iteration_order.
  - apply Permutation_swap.
  - vm_compute. reflexivity.
  - intros u Hu. apply elem_of_dom.
    apply elem_of_cons in Hu as [->|Hu]; [by eexists|].
    apply list_elem_of_singleton in Hu as ->. by eexists.
Defined.

Lemma spin_of_flip v spins u :
  spin_of (flip_spin v spins) u
  = if decide (u = v) then spin_of spins v * -1 else spin_of spins u.
Proof.
  unfold flip_spin. unfold spin_of at 1.
  destruct (decide (u = v)) as [->|Hne].
  - by rewrite lookup_insert_eq.
  - by rewrite lookup_insert_ne.
Qed.

Lemma bias_not_key (h : biases Q) v : v ∉ keys h → bias h v = 0%Q.
Proof.
  intros Hv. unfold bias. destruct (h_lookup h v) eqn:E; [|done].
  exfalso. apply Hv, h_lookup_keys. by eexists.
Qed.

Lemma field_energy_flip (h : biases Q) v spins :
  NoDup (keys h) →
  (field_energy h (flip_spin v spins)
   == field_energy h spins - 2 * inject_Z (spin_of spins v) * bias h v)%Q.
Proof.
  induction h as [|[k x] h IH]; intros Hnd.
  - unfold bias. simpl. ring.
  - unfold keys in Hnd. simpl in Hnd. apply NoDup_cons in Hnd as [Hk Hnd].
    simpl. rewrite (IH Hnd), spin_of_flip. unfold bias at 2. simpl.
    destruct (decide (k = v)) as [->|Hne]; simpl.
    + rewrite (bias_not_key h v Hk), inject_Z_mult.
      change (inject_Z (-1)) with (-1)%Q. ring.
    + fold (bias h v). ring.
Qed.

Lemma pair_energy_flip (J : couplings Q) v spins :
  (pair_energy J (flip_spin v spins)
   == pair_energy J spins
      - 2 * inject_Z (spin_of spins v)
        * (Jsum (fun a b w => if decide (a = v)
                              then w * inject_Z (spin_of spins b) else 0) J
           + Jsum (fun a b w => if decide (b = v)
                                then w * inject_Z (spin_of spins a) else 0) J)
      + 4 * inject_Z (spin_of spins v) * inject_Z (spin_of spins v)
        * Jsum (fun a b w => if decide (a = v ∧ b = v) then w else 0) J)%Q.
Proof.
  unfold pair_energy. induction J as [|[[a b] w] J IH]; simpl; [ring|].
  rewrite IH, !spin_of_flip.
  repeat case_decide; subst; try tauto;
    rewrite ?inject_Z_mult; change (inject_Z (-1)) with (-1)%Q; ring.
Qed.

Lemma self_weight (J : couplings Q) v :
  NoDup J.*1 →
  (Jsum (fun a b w => if decide (a = v ∧ b = v) then w else 0) J
   == weight J (v, v))%Q.
Proof.
  induction J as [|[[a b] w] J IH]; intros Hnd; simpl; [reflexivity|].
  apply NoDup_cons in Hnd as [He Hnd]. rewrite (IH Hnd).
  unfold weight. simpl.
  destruct (decide (a = v ∧ b = v)) as [[-> ->]|Hne].
  - rewrite decide_True by done. rewrite (J_lookup_None J (v, v) He).
    simpl. ring.
  - rewrite decide_False by (intros [= -> ->]; by apply Hne). ring.
Qed.

Section KeySums.
Variable k : node → node * node.
Variable π : node * node → node.
Hypothesis πk : ∀ u, π (k u) = u.

Lemma lsum_pick (e : node * node) (w : Q) (g f : node → Q) l :
  NoDup l →
  (lsum (fun u => (if decide (e = k u) then w else g u) * f u) l
   == (if decide (k (π e) = e ∧ π e ∈ l)
       then (w - g (π e)) * f (π e) else 0)
      + lsum (fun u => g u * f u) l)%Q.
Proof.
  induction l as [|u l IH]; intros Hnd; simpl.
  - rewrite decide_False; [ring|]. intros [_ H]. by apply elem_of_nil in H.
  - apply NoDup_cons in Hnd as [Hu Hnd]. rewrite (IH Hnd).
    destruct (decide (e = k u)) as [->|Hne].
    + rewrite πk. rewrite decide_False by (by intros [_ ?]).
      rewrite decide_True by (split; [done|by left]). ring.
    + destruct (decide (k (π e) = e ∧ π e ∈ l)) as [[H1 H2]|H].
      * rewrite decide_True by (split; [done|by right]). ring.
      * rewrite decide_False; [ring|]. intros [H1 H2]. apply H.
        split; [done|]. apply elem_of_cons in H2 as [H2|H2]; [|done].
        destruct Hne. by rewrite <- H2.
Qed.

Lemma lsum_weight (J : couplings Q) (f : node → Q) l :
  NoDup l → NoDup J.*1 →
  (lsum (fun u => weight J (k u) * f u) l
   == Jsum (fun a b w => if decide (k (π (a, b)) = (a, b) ∧ π (a, b) ∈ l)
                         then w * f (π (a, b)) else 0) J)%Q.
Proof.
  intros Hl. induction J as [|[[a b] w] J IH]; intros HJ.
  - simpl. induction l as [|u l IHl]; simpl; [reflexivity|].
    apply NoDup_cons in Hl as [_ Hl]. rewrite (IHl Hl).
    unfold weight. simpl. ring.
  - simpl in HJ. apply NoDup_cons in HJ as [He HJ]. simpl.
    rewrite <- (IH HJ).
    rewrite (lsum_ext _
      (fun u => (if decide ((a, b) = k u) then w else weight J (k u)) * f u)%Q).
    2:{ intros u _. unfold weight. simpl.
        destruct (decide ((a, b) = k u)); reflexivity. }
    rewrite lsum_pick by done.
    destruct (decide (k (π (a, b)) = (a, b) ∧ π (a, b) ∈ l)) as [[Hk _]|_];
      [|ring].
    unfold weight at 1. rewrite Hk, (J_lookup_None J (a, b) He). simpl. ring.
Qed.

End KeySums.

Lemma local_field_neighbors (h : biases Q) (J : couplings Q) adj spins v :
  NoDup J.*1 → build_adj h J = Ok adj →
  (local_field J spins v (neighbors adj v)
   == Jsum (fun a b w => if decide (a = v)
                         then w * inject_Z (spin_of spins b) else 0) J
      + Jsum (fun a b w => if decide (b = v)
                           then w * inject_Z (spin_of spins a) else 0) J)%Q.
Proof.
  intros HJ Hadj. rewrite local_field_lsum.
  rewrite (lsum_ext _
    (fun u => weight J (v, u) * inject_Z (spin_of spins u)
              + weight J (u, v) * inject_Z (spin_of spins u))%Q).
  2:{ intros u _. unfold coupling. ring. }
  rewrite lsum_plus.
  assert (Hnd : NoDup (neighbors adj v)) by apply NoDup_elements.
  rewrite (lsum_weight (fun u => (v, u)) snd (fun u => eq_refl) J
             (fun u => inject_Z (spin_of spins u)) _ Hnd HJ).
  rewrite (lsum_weight (fun u => (u, v)) fst (fun u => eq_refl) J
             (fun u => inject_Z (spin_of spins u)) _ Hnd HJ).
  apply Qplus_comp; apply Jsum_ext; intros a b w Hin; simpl.
  - destruct (decide (a = v)) as [->|Hne].
    + rewrite decide_True; [reflexivity|]. split; [done|].
      apply (build_adj_neighbors h J adj b v Hadj). left.
      apply list_elem_of_fmap. by exists ((v, b), w).
    + rewrite decide_False; [reflexivity|]. intros [[= ->] _]. done.
  - destruct (decide (b = v)) as [->|Hne].
    + rewrite decide_True; [reflexivity|]. split; [done|].
      apply (build_adj_neighbors h J adj a v Hadj). right.
      apply list_elem_of_fmap. by exists ((a, v), w).
    + rewrite decide_False; [reflexivity|]. intros [[= ->] _]. done.
Qed.

Lemma energy_change_closed (h : biases Q) (J : couplings Q) adj spins v :
  NoDup (keys h) → NoDup J.*1 → build_adj h J = Ok adj →
  (ising_energy h J (flip_spin v spins) - ising_energy h J spins
   == delta_E h J adj spins v
      + 4 * weight J (v, v)
        * inject_Z (spin_of spins v) * inject_Z (spin_of spins v))%Q.
Proof.
  intros Hh HJ Hadj. unfold ising_energy, delta_E.
  rewrite (field_energy_flip h v spins Hh), (pair_energy_flip J v spins).
  rewrite (local_field_neighbors h J adj spins v HJ Hadj).
  rewrite (self_weight J v HJ). ring.
Qed.

Lemma code_delta_E (h : biases Q) (J : couplings Q) adj spins nodes v :
  build_adj h J = Ok adj → dom spins = list_to_set (keys h) →
  (∀ u, u ∈ nodes → u ∈ keys h) → v ∈ nodes →
  ∃ edh edJ dh dJ,
    energy_diff_h h (keys h) spins ∅ = Ok edh ∧
    energy_diff_J J adj spins nodes ∅ = Ok edJ ∧
    edh !! v = Some dh ∧ edJ !! v = Some dJ ∧
    (dh + dJ == delta_E h J adj spins v)%Q.
Proof.
  intros Hadj Hd Hn Hv. apply build_adj_Ok_inv in Hadj as [Hk Hc].
  assert (Hds : dom spins = dom adj) by congruence.
  destruct (energy_diff_h_Ok h (keys h) spins ∅) as (edh & Hedh & _ & Hval).
  { intros u Hu. split; [done|]. rewrite Hd. set_solver. }
  destruct (energy_diff_J_Ok J adj spins nodes ∅ Hc Hds)
    as (edJ & HedJ & _ & HvalJ).
  { intros u Hu. rewrite Hk. apply Hn in Hu. set_solver. }
  assert (Hvk : v ∈ keys h) by (by apply Hn).
  assert (Hs : v ∈ dom spins) by (rewrite Hd; set_solver).
  apply elem_of_dom in Hs as [s Hs].
  pose proof Hvk as [hv Hhv]%h_lookup_keys.
  destruct (HvalJ v) as [_ (nb & e & Hnb & He & HeJ)]; [done|].
  exists edh, edJ, (inject_Z (-2 * s) * hv)%Q, (inject_Z (-2) * e)%Q.
  split; [done|]. split; [done|].
  split; [by apply (proj2 (Hval v) Hvk s hv)|]. split; [done|].
  destruct (ediff_loop_closed J spins v s (elements nb) (inject_Z 0) Hs)
    as (e' & He' & Heq).
  { intros u Hu%elem_of_elements. rewrite Hds. by apply (Hc v nb). }
  assert (e' = e) as -> by (cbn [of_int Q_num] in He; congruence).
  unfold delta_E, spin_of, bias, neighbors. rewrite Hs, Hhv, Hnb. simpl.
  rewrite Heq, inject_Z_mult.
  change (inject_Z (-2)) with (-2)%Q. change (inject_Z 0) with 0%Q. ring.
Qed.

(** X8. In exact arithmetic, with [h] and [J] dicts (distinct keys), the
    quantity [energy_diff_h[v] + energy_diff_J[v]] that the loop tests is
    the change of the energy of the model when the spin of [v] is flipped,
    minus [4·J[(v,v)]·spin[v]²] if [J] has the self-coupling [(v,v)]:
    without a self-coupling it is exactly the energy change. *)
Theorem X8_tested_quantity_is_the_energy_change (h : biases Q)
    (J : couplings Q) (adj : gmap node (gset node)) (spins : gmap node Z)
    (nodes : list node) (v : node) :
  NoDup (keys h) → NoDup J.*1 →
  build_adj h J = Ok adj → dom spins = list_to_set (keys h) →
  (∀ u, u ∈ nodes → u ∈ keys h) → v ∈ nodes →
  ∃ edh edJ dh dJ,
    energy_diff_h h (keys h) spins ∅ = Ok edh ∧
    energy_diff_J J adj spins nodes ∅ = Ok edJ ∧
    edh !! v = Some dh ∧ edJ !! v = Some dJ ∧
    (dh + dJ
     == ising_energy h J (flip_spin v spins) - ising_energy h J spins
        - 4 * weight J (v, v)
          * inject_Z (spin_of spins v) * inject_Z (spin_of spins v))%Q ∧
    (J_lookup J (v, v) = None →
     (dh + dJ
      == ising_energy h J (flip_spin v spins) - ising_energy h J spins)%Q).
Proof.
  intros Hh HJ Hadj Hd Hn Hv.
  destruct (code_delta_E h J adj spins nodes v Hadj Hd Hn Hv)
    as (edh & edJ & dh & dJ & Hedh & HedJ & Hdh & HdJ & Heq).
  exists edh, edJ, dh, dJ. repeat (split; [done|]).
  pose proof (energy_change_closed h J adj spins v Hh HJ Hadj) as HE.
  split.
  - rewrite Heq, HE. ring.
  - intros Hself. rewrite Heq, HE. unfold weight. rewrite Hself. simpl. ring.
Qed.

Lemma X8_witness :
  ∃ edh edJ dh dJ,
    energy_diff_h example_h (keys example_h) {[0 := -1; 1 := 1; 2 := 1]} ∅
      = Ok edh ∧
    energy_diff_J example_J example_adj {[0 := -1; 1 := 1; 2 := 1]} [0; 2] ∅
      = Ok edJ ∧
    edh !! 2 = Some dh ∧ edJ !! 2 = Some dJ ∧
    (dh + dJ
     == ising_energy example_h example_J
          (flip_spin 2%Z {[0%Z := (-1)%Z; 1%Z := 1%Z; 2%Z := 1%Z]})
        - ising_energy example_h example_J
            {[0%Z := (-1)%Z; 1%Z := 1%Z; 2%Z := 1%Z]}
        - 4 * weight example_J (2%Z, 2%Z)
          * inject_Z (spin_of {[0%Z := (-1)%Z; 1%Z := 1%Z; 2%Z := 1%Z]} 2%Z)
          * inject_Z (spin_of {[0%Z := (-1)%Z; 1%Z := 1%Z; 2%Z := 1%Z]} 2%Z))%Q ∧
    (J_lookup example_J (2, 2) = None →
     (dh + dJ
      == ising_energy example_h example_J
           (flip_spin 2%Z {[0%Z := (-1)%Z; 1%Z := 1%Z; 2%Z := 1%Z]})
         - ising_energy example_h example_J
             {[0%Z := (-1)%Z; 1%Z := 1%Z; 2%Z := 1%Z]})%Q).
Proof.
  apply X8_tested_quantity_is_the_energy_change.
  - compute_done.
  - compute_done.
  - exact example_build_adj.
  - vm_compute. reflexivity.
  - intros u Hu. unfold keys. simpl.
    apply elem_of_cons in Hu as [->|Hu]; [set_solver|].
    apply list_elem_of_singleton in Hu as ->. set_solver.
  - set_solver.
Defined.

(** ** Sweeps at [β = 0] *)

Section ZeroBeta.
Context {rng : Type} `{RS : RandomSource Q rng}.
Variable h : biases Q.
Variable J : couplings Q.
Variable clamped : gmap node Z.
Variable β : Q.
Hypothesis Hβ : (β == 0)%Q.
Hypothesis Hlog : ∀ g : rng, ((rand_log_uniform g).1 < 0)%Q.

Lemma accept_β_zero dh dJ (g : rng) :
  accept β dh dJ (rand_log_uniform g).1 = true.
Proof.
  unfold accept. cbn [nltb nmul nadd of_int Q_num]. apply Qltb_lt.
  rewrite Hβ. change (inject_Z (-1)) with (-1)%Q.
  pose proof (Hlog g). lra.
Qed.

Lemma flip_loop_zero edh edJ nodes spins g spins' g' :
  NoDup nodes →
  flip_loop clamped β edh edJ nodes spins g = Ok (spins', g') →
  ∀ v, spins' !! v
       = if decide (v ∈ nodes ∧ clamped !! v = None)
         then (fun s => s * -1) <$> spins !! v else spins !! v.
Proof.
  revert spins g.
  induction nodes as [|v0 nodes IH]; intros spins g Hnd Hfl v; simpl in Hfl.
  - injection Hfl as <- _. rewrite decide_False; [done|].
    intros [H _]. by apply elem_of_nil in H.
  - apply NoDup_cons in Hnd as [Hv0 Hnd].
    destruct (clamped !! v0) as [c|] eqn:Hc.
    + rewrite (IH _ _ Hnd Hfl). apply decide_ext.
      split; intros [H1 H2]; (split; [|done]).
      * by right.
      * apply elem_of_cons in H1 as [->|H1]; [congruence|done].
    + pose proof (accept_β_zero) as Hacc.
      destruct (rand_log_uniform g) as [logp g1] eqn:Hr.
      destruct (get edh v0) as [dh|]; simpl in Hfl; [|done].
      destruct (get edJ v0) as [dJ|]; simpl in Hfl; [|done].
      specialize (Hacc dh dJ g). rewrite Hr in Hacc. simpl in Hacc.
      rewrite Hacc in Hfl.
      destruct (get spins v0) as [s|] eqn:Hs; simpl in Hfl; [|done].
      apply get_Ok in Hs.
      rewrite (IH _ _ Hnd Hfl).
      destruct (decide (v = v0)) as [->|Hne].
      * rewrite decide_False by (by intros [? _]).
        rewrite decide_True by (split; [by left|done]).
        by rewrite lookup_insert_eq, Hs.
      * rewrite lookup_insert_ne by done. apply decide_ext.
        split; intros [H1 H2]; (split; [|done]).
        -- by right.
        -- apply elem_of_cons in H1 as [->|H1]; done.
Qed.

Lemma color_loop_zero adj edh colors spins g spins' g' :
  NoDup (concat colors) →
  color_loop J clamped adj β edh colors spins g = Ok (spins', g') →
  ∀ v, spins' !! v
       = if decide (v ∈ concat colors ∧ clamped !! v = None)
         then (fun s => s * -1) <$> spins !! v else spins !! v.
Proof.
  revert spins g.
  induction colors as [|c colors IH]; intros spins g Hnd Hcl v; simpl in Hcl.
  - injection Hcl as <- _. rewrite decide_False; [done|].
    intros [H _]. by apply elem_of_nil in H.
  - change (concat (c :: colors)) with (c ++ concat colors) in *.
    apply NoDup_app in Hnd as (Hc & Hdisj & Hnd).
    unfold update_class in Hcl.
    destruct (energy_diff_J J adj spins c ∅) as [edJ|]; simpl in Hcl; [|done].
    destruct (flip_loop clamped β edh edJ c spins g) as [[s1 g1]|] eqn:Hfl;
      simpl in Hcl; [|done].
    rewrite (IH _ _ Hnd Hcl), (flip_loop_zero _ _ _ _ _ _ _ Hc Hfl v).
    destruct (decide (v ∈ c)) as [Hvc|Hvc].
    + rewrite (decide_False (P := v ∈ concat colors ∧ _))
        by (intros [H _]; by apply (Hdisj v)).
      apply decide_ext. split; intros [H1 H2]; (split; [|done]); [|done].
      apply elem_of_app. by left.
    + rewrite (decide_False (P := v ∈ c ∧ _)) by (by intros [? _]).
      apply decide_ext. split; intros [H1 H2]; (split; [|done]).
      * apply elem_of_app. by right.
      * apply elem_of_app in H1 as [H1|H1]; done.
Qed.

Lemma sweep_zero adj colors spins g spins' g' :
  NoDup (concat colors) →
  sweep h J clamped adj colors β spins g = Ok (spins', g') →
  ∀ v, spins' !! v
       = if decide (v ∈ concat colors ∧ clamped !! v = None)
         then (fun s => s * -1) <$> spins !! v else spins !! v.
Proof.
  intros Hnd. unfold sweep.
  destruct (energy_diff_h h (keys h) spins ∅) as [edh|]; simpl; [|done].
  by apply color_loop_zero.
Qed.

End ZeroBeta.

Lemma neg_tape_negative (t : neg_tape) : ((rand_log_uniform t).1 < 0)%Q.
Proof.
  unfold rand_log_uniform, neg_tape_source.
  destruct (neg_logs t) as [|p r]; simpl; reflexivity.
Qed.

(** X9. A sweep at [β = 0], such as the one of the last entry of [βs],
    ignores the energies: in exact arithmetic, with logarithms below zero and
    colour classes that list no node twice, a run whose schedule ends with
    [β = 0] returns the assignment reached before that last sweep with the
    spin of every unclamped coloured node flipped, and every other entry
    unchanged. *)
Theorem X9_sweep_at_zero_flips_every_free_spin
    {rng : Type} `{RS : RandomSource Q rng}
    (greedy_coloring : gmap node (gset node) → list (list node))
    (h : biases Q) (J : couplings Q) (clamped : gmap node Z)
    (adj : gmap node (gset node)) (schedule : list Q) (β : Q)
    (g g' : rng) (spins' : gmap node Z) :
  (β == 0)%Q →
  (∀ g0 : rng, ((rand_log_uniform g0).1 < 0)%Q) →
  build_adj h J = Ok adj →
  NoDup (concat (greedy_coloring adj)) →
  Sample greedy_coloring h J clamped (schedule ++ [β]) g = Ok (spins', g') →
  ∃ spins0 g0,
    Sample greedy_coloring h J clamped schedule g = Ok (spins0, g0) ∧
    ∀ v, spins' !! v
         = if decide (v ∈ concat (greedy_coloring adj) ∧ clamped !! v = None)
           then (fun s => s * -1) <$> spins0 !! v else spins0 !! v.
Proof.
  intros Hβ Hlog Hadj Hnd. unfold Sample. rewrite Hadj. simpl.
  destruct (init_spins clamped (keys h) ∅ g) as [spins1 g1].
  rewrite sweeps_app.
  destruct (sweeps h J clamped adj (greedy_coloring adj) schedule spins1 g1)
    as [[spins0 g0]|]; simpl; [|done].
  destruct (sweep h J clamped adj (greedy_coloring adj) β spins0 g0)
    as [[s2 g2]|] eqn:Hsw; simpl; [|done].
  intros [= -> ->]. exists spins0, g0. split; [done|].
  by eapply sweep_zero.
Qed.

Lemma X9_witness :
  ∃ spins0 g0,
    Sample example_coloring example_h example_J example_clamped [1%Q]
      (NegTape [true; false] [3%positive]) = Ok (spins0, g0) ∧
    ∀ v, ({[0 := -1; 1 := 1; 2 := -1]} : gmap node Z) !! v
         = if decide (v ∈ concat (example_coloring example_adj)
                      ∧ example_clamped !! v = None)
           then (fun s => s * -1) <$> spins0 !! v else spins0 !! v.
Proof.
  apply (X9_sweep_at_zero_flips_every_free_spin example_coloring example_h
           example_J example_clamped example_adj [1%Q] 0%Q
           (NegTape [true; false] [3%positive]) (NegTape [] [])).
  - reflexivity.
  - exact neg_tape_negative.
  - exact example_build_adj.
  - compute_done.
  - vm_compute. reflexivity.
Defined.

(** ** The model of cell 1 *)

Lemma draw_biases_keys {num rng} `{Num num} `{UniformSource num rng}
    (vs : list node) (g : rng) :
  keys (draw_biases vs g).1 = vs.
Proof.
  revert g. induction vs as [|v vs IH]; intros g; simpl; [done|].
  destruct (rand_uniform _ _ g) as [x g1].
  specialize (IH g1). destruct (draw_biases vs g1) as [h g2].
  unfold keys in *. simpl in *. f_equal. exact IH.
Qed.

Lemma chain_within (n_spins : Z) {num} (j01 j12 : num) :
  couplings_within (list_to_set (seqZ 0 n_spins) : gset node)
    [((0, 1), j01); ((1, 2), j12)]
  ↔ 3 ≤ n_spins.
Proof.
  unfold couplings_within. rewrite !Forall_cons. simpl.
  rewrite !elem_of_list_to_set, !elem_of_seqZ. split.
  - intros (_ & (_ & ?) & _). lia.
  - intros ?. repeat split; try lia. constructor.
Qed.

(** X10. The model of cell 1, for any [n_spins] and any outcome of the
    uniform draws: [h] has the keys [0 .. n_spins-1], each once, [J] has the
    keys [(0,1)] and [(1,2)] and no self-coupling.  With [n_spins < 3] the
    adjacency loop of cell 5 raises [KeyError]; with [n_spins >= 3] it
    returns the chain 0 - 1 - 2, every further node being isolated. *)
Theorem X10_cell_1_model_and_its_adjacency {num rng : Type}
    `{NA : Num num} `{US : UniformSource num rng}
    (n_spins : Z) (g g' : rng) (h : biases num) (J : couplings num) :
  make_model n_spins g = (h, J, g') →
  keys h = seqZ 0 n_spins ∧ NoDup (keys h) ∧
  J.*1 = [(0, 1); (1, 2)] ∧ (∀ v, J_lookup J (v, v) = None) ∧
  (n_spins < 3 → build_adj h J = KeyError) ∧
  (3 ≤ n_spins →
   ∃ adj, build_adj h J = Ok adj ∧
          ∀ u v, u ∈ neighbors adj v
                 ↔ (v, u) ∈ [(0, 1); (1, 0); (1, 2); (2, 1)]).
Proof.
  intros Hm. unfold make_model in Hm.
  pose proof (draw_biases_keys (seqZ 0 n_spins) g) as Hk.
  destruct (draw_biases (seqZ 0 n_spins) g) as [h0 g1].
  destruct (rand_uniform _ _ g1) as [j01 g2].
  destruct (rand_uniform _ _ g2) as [j12 g3].
  injection Hm as <- <- <-. simpl in Hk.
  split; [done|]. split; [rewrite Hk; apply NoDup_seqZ|].
  split; [done|]. split.
  { intros v. simpl. repeat case_decide; simplify_eq; done. }
  split.
  - intros Hn. apply build_adj_KeyError. rewrite Hk, chain_within. lia.
  - intros Hn.
    destruct (build_adj_Ok h0 [((0, 1), j01); ((1, 2), j12)])
      as (adj & Hadj & _); [by rewrite Hk, chain_within|].
    exists adj. split; [done|]. intros u v.
    rewrite (build_adj_neighbors h0 _ adj u v Hadj). simpl.
    rewrite !elem_of_cons, !elem_of_nil. split.
    + intros [[H|[H|[]]]|[H|[H|[]]]]; simplify_eq; tauto.
    + intros [H|[H|[H|[H|[]]]]]; simplify_eq; tauto.
Qed.

Lemma X10_witness :
  keys [(0, 1%Q); (1, 0%Q); (2, (-1)%Q)] = seqZ 0 3 ∧
  NoDup (keys [(0, 1%Q); (1, 0%Q); (2, (-1)%Q)]) ∧
  [((0, 1), (1 # 2)%Q); ((1, 2), (-1)%Q)].*1 = [(0, 1); (1, 2)] ∧
  (∀ v, J_lookup [((0, 1), (1 # 2)%Q); ((1, 2), (-1)%Q)] (v, v) = None) ∧
  (3 < 3 →
   build_adj [(0, 1%Q); (1, 0%Q); (2, (-1)%Q)]
     [((0, 1), (1 # 2)%Q); ((1, 2), (-1)%Q)] = KeyError) ∧
  (3 ≤ 3 →
   ∃ adj,
     build_adj [(0, 1%Q); (1, 0%Q); (2, (-1)%Q)]
       [((0, 1), (1 # 2)%Q); ((1, 2), (-1)%Q)] = Ok adj ∧
     ∀ u v, u ∈ neighbors adj v
            ↔ (v, u) ∈ [(0, 1); (1, 0); (1, 2); (2, 1)]).
Proof.
  apply (X10_cell_1_model_and_its_adjacency 3
           [1%Q; 0%Q; (-1)%Q; (1 # 2)%Q] []).
  reflexivity.
Defined.

(** ** Only the products [β·h] and [β·J] matter *)

Section Scaling.
Context {rng : Type} `{RS : RandomSource Q rng}.
Variable c : Q.
Hypothesis Hc : ¬ (c == 0)%Q.
Variable h : biases Q.
Variable J : couplings Q.
Variable clamped : gmap node Z.

Lemma keys_scale : keys (scale_biases c h) = keys h.
Proof.
  unfold keys, scale_biases. induction h as [|[k x] h' IH]; simpl; [done|].
  f_equal. exact IH.
Qed.

Lemma adj_edges_scale adj : adj_edges (scale_couplings c J) adj = adj_edges J adj.
Proof.
  revert adj. unfold scale_couplings.
  induction J as [|[[n0 n1] w] J' IH]; intros adj; simpl; [done|].
  destruct (adj_add adj n0 n1) as [adj1|]; simpl; [|done].
  destruct (adj_add adj1 n1 n0) as [adj2|]; simpl; [|done].
  apply IH.
Qed.

Lemma build_adj_scale :
  build_adj (scale_biases c h) (scale_couplings c J) = build_adj h J.
Proof.
  unfold build_adj, adj_init. by rewrite adj_edges_scale, keys_scale.
Qed.

Lemma h_lookup_scale v :
  h_lookup (scale_biases c h) v = Qmult c <$> h_lookup h v.
Proof.
  unfold scale_biases. induction h as [|[k x] h' IH]; simpl; [done|].
  by destruct (decide (k = v)).
Qed.

Lemma J_lookup_scale e :
  J_lookup (scale_couplings c J) e = Qmult c <$> J_lookup J e.
Proof.
  unfold scale_couplings. induction J as [|[k x] J' IH]; simpl; [done|].
  by destruct (decide (k = e)).
Qed.

Lemma scaled_empty : scaled c ∅ ∅.
Proof. intros v. by rewrite !lookup_empty. Qed.

Lemma scaled_insert m m' v x x' :
  scaled c m m' → (x' == c * x)%Q → scaled c (<[v := x]> m) (<[v := x']> m').
Proof.
  intros Hm Hx u. destruct (decide (v = u)) as [->|Hne].
  - by rewrite !lookup_insert_eq.
  - rewrite !lookup_insert_ne by done. apply Hm.
Qed.

Lemma energy_diff_h_scale vs spins acc acc' :
  scaled c acc acc' →
  result_rel (scaled c) (energy_diff_h h vs spins acc)
    (energy_diff_h (scale_biases c h) vs spins acc').
Proof.
  revert acc acc'. induction vs as [|v vs IH]; intros acc acc' Hacc; simpl.
  - done.
  - destruct (get spins v) as [s|]; simpl; [|done].
    rewrite h_lookup_scale. destruct (h_lookup h v) as [hv|]; simpl; [|done].
    apply IH, scaled_insert; [done|].
    cbn [nmul of_int Q_num]. ring.
Qed.

Lemma add_coupling_scale spins v0 v1 e x x' :
  (x' == c * x)%Q →
  result_rel (fun y y' => (y' == c * y)%Q)
    (add_coupling J spins v0 v1 e x)
    (add_coupling (scale_couplings c J) spins v0 v1 e x').
Proof.
  intros Hx. unfold add_coupling. rewrite J_lookup_scale.
  destruct (J_lookup J e) as [w|]; simpl; [|done].
  destruct (get spins v0) as [s0|]; simpl; [|done].
  destruct (get spins v1) as [s1|]; simpl; [|done].
  rewrite Hx. ring.
Qed.

Lemma ediff_loop_scale spins v0 nbrs x x' :
  (x' == c * x)%Q →
  result_rel (fun y y' => (y' == c * y)%Q)
    (ediff_loop J spins v0 nbrs x)
    (ediff_loop (scale_couplings c J) spins v0 nbrs x').
Proof.
  revert x x'. induction nbrs as [|v1 nbrs IH]; intros x x' Hx; simpl; [done|].
  pose proof (add_coupling_scale spins v0 v1 (v0, v1) x x' Hx) as H1.
  destruct (add_coupling J spins v0 v1 (v0, v1) x) as [e1|],
    (add_coupling (scale_couplings c J) spins v0 v1 (v0, v1) x') as [e1'|];
    simpl in *; try done.
  pose proof (add_coupling_scale spins v0 v1 (v1, v0) e1 e1' H1) as H2.
  destruct (add_coupling J spins v0 v1 (v1, v0) e1) as [e2|],
    (add_coupling (scale_couplings c J) spins v0 v1 (v1, v0) e1') as [e2'|];
    simpl in *; try done.
  by apply IH.
Qed.

Lemma energy_diff_J_scale adj spins nodes acc acc' :
  scaled c acc acc' →
  result_rel (scaled c) (energy_diff_J J adj spins nodes acc)
    (energy_diff_J (scale_couplings c J) adj spins nodes acc').
Proof.
  revert acc acc'. induction nodes as [|v0 nodes IH]; intros acc acc' Hacc;
    simpl; [done|].
  destruct (get adj v0) as [nb|]; simpl; [|done].
  assert (H0 : (inject_Z 0 == c * inject_Z 0)%Q).
  { change (inject_Z 0) with 0%Q. ring. }
  pose proof (ediff_loop_scale spins v0 (elements nb) _ _ H0) as He.
  destruct (ediff_loop J spins v0 (elements nb) (inject_Z 0)) as [e|],
    (ediff_loop (scale_couplings c J) spins v0 (elements nb) (inject_Z 0))
      as [e'|]; simpl in *; try done.
  apply IH, scaled_insert; [done|]. rewrite He. ring.
Qed.

Lemma accept_scale β dh dJ dh' dJ' logp :
  (dh' == c * dh)%Q → (dJ' == c * dJ)%Q →
  accept (β / c)%Q dh' dJ' logp = accept β dh dJ logp.
Proof.
  intros Hh HJ. unfold accept. cbn [nltb nmul nadd of_int Q_num].
  apply Qltb_compat; [reflexivity|]. rewrite Hh, HJ. field. exact Hc.
Qed.

Lemma flip_loop_scale β edh edh' edJ edJ' nodes spins g :
  scaled c edh edh' → scaled c edJ edJ' →
  flip_loop clamped (β / c)%Q edh' edJ' nodes spins g
  = flip_loop clamped β edh edJ nodes spins g.
Proof.
  intros Hh HJ. revert spins g.
  induction nodes as [|v nodes IH]; intros spins g; cbn [flip_loop]; [done|].
  destruct (clamped !! v); [apply IH|].
  destruct (rand_log_uniform g) as [logp g1].
  specialize (Hh v). specialize (HJ v).
  assert (Hget : ∀ m : gmap node Q, get m v = match m !! v with
                                               | Some x => Ok x
                                               | None => KeyError
                                               end) by done.
  rewrite !Hget.
  destruct (edh !! v) as [dh|], (edh' !! v) as [dh'|]; cbn [rbind]; try done.
  destruct (edJ !! v) as [dJ|], (edJ' !! v) as [dJ'|]; cbn [rbind]; try done.
  rewrite (accept_scale β dh dJ dh' dJ' logp Hh HJ).
  destruct (accept β dh dJ logp); [|apply IH].
  destruct (get spins v) as [s|]; cbn [rbind]; [apply IH|done].
Qed.

Lemma color_loop_scale adj β edh edh' colors spins g :
  scaled c edh edh' →
  color_loop (scale_couplings c J) clamped adj (β / c)%Q edh' colors spins g
  = color_loop J clamped adj β edh colors spins g.
Proof.
  intros Hh. revert spins g.
  induction colors as [|nodes colors IH]; intros spins g; simpl; [done|].
  unfold update_class.
  pose proof (energy_diff_J_scale adj spins nodes ∅ ∅ scaled_empty) as HJ.
  destruct (energy_diff_J J adj spins nodes ∅) as [edJ|],
    (energy_diff_J (scale_couplings c J) adj spins nodes ∅) as [edJ'|];
    simpl in *; try done.
  rewrite (flip_loop_scale β edh edh' edJ edJ' nodes spins g Hh HJ).
  destruct (flip_loop clamped β edh edJ nodes spins g) as [[s1 g1]|];
    simpl; [apply IH|done].
Qed.

Lemma sweep_scale adj colors β spins g :
  sweep (scale_biases c h) (scale_couplings c J) clamped adj colors
    (β / c)%Q spins g
  = sweep h J clamped adj colors β spins g.
Proof.
  unfold sweep. rewrite keys_scale.
  pose proof (energy_diff_h_scale (keys h) spins ∅ ∅ scaled_empty) as Hh.
  destruct (energy_diff_h h (keys h) spins ∅) as [edh|],
    (energy_diff_h (scale_biases c h) (keys h) spins ∅) as [edh'|];
    simpl in *; try done.
  by apply color_loop_scale.
Qed.

Lemma sweeps_scale adj colors schedule spins g :
  sweeps (scale_biases c h) (scale_couplings c J) clamped adj colors
    ((fun β => β / c)%Q <$> schedule) spins g
  = sweeps h J clamped adj colors schedule spins g.
Proof.
  revert spins g.
  induction schedule as [|β schedule IH]; intros spins g; simpl; [done|].
  rewrite sweep_scale.
  destruct (sweep h J clamped adj colors β spins g) as [[s1 g1]|];
    simpl; [apply IH|done].
Qed.

End Scaling.

(** X11. In exact arithmetic the run depends on the schedule, the biases and
    the couplings only through the products [β·h] and [β·J]: multiplying
    every bias and every coupling by [c ≠ 0] and dividing every [β] by [c]
    gives the same outcome (the same assignment and generator state, or the
    same [KeyError]) on the same draws. *)
Theorem X11_only_the_products_with_beta_matter
    {rng : Type} `{RS : RandomSource Q rng}
    (greedy_coloring : gmap node (gset node) → list (list node))
    (c : Q) (h : biases Q) (J : couplings Q) (clamped : gmap node Z)
    (schedule : list Q) (g : rng) :
  ¬ (c == 0)%Q →
  Sample greedy_coloring (scale_biases c h) (scale_couplings c J) clamped
    ((fun β => β / c)%Q <$> schedule) g
  = Sample greedy_coloring h J clamped schedule g.
Proof.
  intros Hc. unfold Sample. rewrite build_adj_scale, keys_scale.
  destruct (build_adj h J) as [adj|]; simpl; [|done].
  destruct (init_spins clamped (keys h) ∅ g) as [spins g1].
  by apply sweeps_scale.
Qed.

Lemma X11_witness :
  Sample example_coloring (scale_biases 2 example_h)
    (scale_couplings 2 example_J) example_clamped
    ((fun β => β / 2)%Q <$> [1%Q; (1 # 2)%Q; 0%Q]) example_tape
  = Sample example_coloring example_h example_J example_clamped
      [1%Q; (1 # 2)%Q; 0%Q] example_tape.
Proof.
  apply X11_only_the_products_with_beta_matter. intros H. discriminate H.
Defined.
